(** * gonutz/blob: a shallow embedding of the blob container and its codec

    The Go package keeps an ordered index of (id, start, end) entries over
    one data buffer, serialises it as

      uint32 header length | (uint16 id length | id | uint64 data length)* | data

    with every number in little-endian byte order, and reads it back.

    The embedding follows blob.go function by function, in its latest
    revision; the first revision differs in the loop that dissects the
    header, which is embedded as well ([dissect_v1], [Read_v1]) and shown to
    agree with the later one.  Go values are modelled as follows.
    - [[]byte] is [list byte]; a nil slice and an empty slice are both [[]].
    - [string] is [String.string], a sequence of bytes; [[]byte(s)] is
      [list_byte_of_string] and [string(bs)] is [string_of_list_byte].
    - [uint16], [uint32] and [uint64] values are [Z] with the wrap-around of
      every conversion and operation written out.
    - [error] is an inductive type: the sentinel errors of package io and the
      values built by [errors.New]; [nil] is [None].
    - [io.Writer] and [io.Reader] are type classes; [bytes.Buffer], which the
      package uses internally and which its tests use as sink and source, is
      an instance of both.
    - a run-time panic (slice bounds, length overflow in [append]) is the
      outcome [Panic]; loops whose termination depends on the reader take
      fuel and may end in [OutOfFuel]. *)

From Stdlib Require Import ZArith Ascii String List Lia Bool.
From coqutil Require Import Byte Word.LittleEndianList.
Import ListNotations.
Local Open Scope Z_scope.

Set Implicit Arguments.

(** ** Go values *)

(** [len(s)] of a slice. *)
Definition len {A : Type} (s : list A) : Z := Z.of_nat (List.length s).

(** [len(s)] of a string: its number of bytes. *)
Definition strlen (s : string) : Z := Z.of_nat (String.length s).

(** Conversions to the unsigned integer types keep the low bits. *)
Definition uint16 (z : Z) : Z := z mod 2 ^ 16.
Definition uint32 (z : Z) : Z := z mod 2 ^ 32.
Definition uint64 (z : Z) : Z := z mod 2 ^ 64.

(** The largest [int] (64-bit platforms); no slice is longer. *)
Definition MaxInt : Z := 2 ^ 63 - 1.

(** [make([]byte, n)]: [n] zero bytes. *)
Definition make (n : Z) : list byte := repeat Byte.x00 (Z.to_nat n).

(** ** Errors *)

Inductive error : Type :=
| EOF                          (* io.EOF *)
| ErrUnexpectedEOF             (* io.ErrUnexpectedEOF *)
| ErrShortBuffer               (* io.ErrShortBuffer *)
| errors_New (text : string).  (* errors.New(text) *)

(** [err.Error()] *)
Definition Error (e : error) : string :=
  match e with
  | EOF => "EOF"
  | ErrUnexpectedEOF => "unexpected EOF"
  | ErrShortBuffer => "short buffer"
  | errors_New text => text
  end.

(** [err == nil] and [err == io.EOF] *)
Definition is_nil (err : option error) : bool :=
  match err with None => true | Some _ => false end.

Definition is_EOF (err : option error) : bool :=
  match err with Some EOF => true | _ => false end.

(** ** Outcomes of a call *)

Inductive outcome (A : Type) : Type :=
| Ret (a : A)            (* the call returns *)
| Panic (msg : string)   (* a run-time panic unwinds the call *)
| OutOfFuel.             (* the loop budget of the model is used up *)

Arguments Ret {A} a.
Arguments Panic {A} msg.
Arguments OutOfFuel {A}.

Definition bind {A B : Type} (m : outcome A) (k : A -> outcome B) : outcome B :=
  match m with
  | Ret a => k a
  | Panic msg => Panic msg
  | OutOfFuel => OutOfFuel
  end.

Notation "x <- m ;; k" := (bind m (fun x => k))
  (at level 61, m at next level, right associativity).
Notation "' p <- m ;; k" := (bind m (fun x => let p := x in k))
  (at level 61, p pattern, m at next level, right associativity).

(** The slice expression [s[lo:hi]].  The slices of this package never have
    spare capacity that an index could reach: the one built by [append] is
    only indexed below its length, the one built by [make] has none. *)
Definition slice (s : list byte) (lo hi : Z) : outcome (list byte) :=
  if (0 <=? lo) && (lo <=? hi) && (hi <=? len s)
  then Ret (firstn (Z.to_nat (hi - lo)) (skipn (Z.to_nat lo) s))
  else Panic "slice bounds out of range".

(** ** Package io *)

Module io.

(** [Write(p) (n, err)]: the writer after the call, [n] and [err]. *)
Class Writer (W : Type) : Type :=
  { Write : W -> list byte -> W * (Z * option error) }.

(** [Read(p) (n, err)] for a [p] of length [k]: the reader after the call,
    the [n] bytes it stored at the front of [p], and [err].  A reader may
    return fewer than [k] bytes without an error, never more. *)
Class Reader (R : Type) : Type :=
  { Read : R -> Z -> R * (list byte * option error) }.

Class ReaderOk (R : Type) `{Reader R} : Prop :=
  { Read_le : forall r k, 0 <= k -> len (fst (snd (Read r k))) <= k }.

Arguments ReaderOk R {_}.

(** What [buf] holds after a read into [buf[n:]] stored [got]. *)
Definition stored (buf : list byte) (n : Z) (got : list byte) : list byte :=
  firstn (Z.to_nat n) buf ++ got ++ skipn (Z.to_nat n + List.length got) buf.

(** The loop of [ReadAtLeast]:
    [for n < min && err == nil { nn, err = r.Read(buf[n:]); n += nn }]. *)
Fixpoint ReadAtLeast_loop {R : Type} `{Reader R} (fuel : nat) (r : R)
  (buf : list byte) (min n : Z) (err : option error)
  : outcome (R * (list byte * (Z * option error))) :=
  if (n <? min) && is_nil err then
    match fuel with
    | O => OutOfFuel
    | S fuel' =>
        let '(r', (got, err')) := Read r (len buf - n) in
        ReadAtLeast_loop fuel' r' (stored buf n got) min (n + len got) err'
    end
  else Ret (r, (buf, (n, err))).

Definition ReadAtLeast {R : Type} `{Reader R} (fuel : nat) (r : R)
  (buf : list byte) (min : Z) : outcome (R * (list byte * (Z * option error))) :=
  if len buf <? min then Ret (r, (buf, (0, Some ErrShortBuffer)))
  else
    '(r', (buf', (n, err))) <- ReadAtLeast_loop fuel r buf min 0 None ;;
    let err' :=
      if n >=? min then None
      else if (n >? 0) && is_EOF err then Some ErrUnexpectedEOF
      else err in
    Ret (r', (buf', (n, err'))).

Definition ReadFull {R : Type} `{Reader R} (fuel : nat) (r : R) (buf : list byte)
  : outcome (R * (list byte * (Z * option error))) :=
  ReadAtLeast fuel r buf (len buf).

End io.

(** ** Package encoding/binary, little-endian, fixed-size unsigned values *)

Module binary.

(** [binary.Write(w, binary.LittleEndian, v)] for a [v] of [size] bytes:
    one [w.Write] of the encoded value, whose error is returned. *)
Definition Write {W : Type} `{io.Writer W} (w : W) (size : nat) (v : Z)
  : W * option error :=
  let bs := le_split size v in
  let '(w', (_, err)) := io.Write w bs in
  (w', err).

(** [binary.Read(r, binary.LittleEndian, &v)] for a [v] of [size] bytes:
    [io.ReadFull] of [size] bytes; [v] is assigned only when that succeeds. *)
Definition Read {R : Type} `{io.Reader R} (fuel : nat) (r : R) (size : nat)
  : outcome (R * (Z + error)) :=
  let bs := make (Z.of_nat size) in
  '(r', (bs', (_, err))) <- io.ReadFull fuel r bs ;;
  match err with
  | Some e => Ret (r', inr e)
  | None => Ret (r', inl (le_combine bs'))
  end.

End binary.

(** ** bytes.Buffer *)

Module bytes.

(** The unread portion of the buffer. *)
Definition Buffer : Type := list byte.

Definition NewBuffer (buf : list byte) : Buffer := buf.

Definition Len (b : Buffer) : Z := len b.

Definition Bytes (b : Buffer) : list byte := b.

(** [Write] appends and never fails. *)
Definition Write (b : Buffer) (p : list byte) : Buffer * (Z * option error) :=
  (b ++ p, (len p, None)).

(** [Read]: on an empty buffer [0, nil] when [len(p) == 0] and [0, io.EOF]
    otherwise; else as many bytes as fit, with a nil error. *)
Definition Read (b : Buffer) (k : Z) : Buffer * (list byte * option error) :=
  match b with
  | [] => if k =? 0 then ([], ([], None)) else ([], ([], Some EOF))
  | _ :: _ =>
      let n := Z.to_nat (Z.min k (len b)) in
      (skipn n b, (firstn n b, None))
  end.

(** [Next(n)]: the next [n] bytes, or all of them when fewer are left. *)
Definition Next (b : Buffer) (n : Z) : Buffer * list byte :=
  let m := Len b in
  let n' := if n >? m then m else n in
  (skipn (Z.to_nat n') b, firstn (Z.to_nat n') b).

(** A [bytes.Reader] over a byte slice: only the unread portion [s[i:]]
    matters to [Read] and [Len]. *)
Record Reader : Type := mkReader { unread : list byte }.

Definition NewReader (b : list byte) : Reader := {| unread := b |}.

Definition Reader_Len (r : Reader) : Z := len (unread r).

(** [Read] of a [bytes.Reader]: [0, io.EOF] once everything is read, also
    for an empty [p]; else as many bytes as fit, with a nil error. *)
Definition Reader_Read (r : Reader) (k : Z) : Reader * (list byte * option error) :=
  match unread r with
  | [] => (r, ([], Some EOF))
  | _ :: _ =>
      let n := Z.to_nat (Z.min k (len (unread r))) in
      ({| unread := skipn n (unread r) |}, (firstn n (unread r), None))
  end.

End bytes.

#[export] Instance Buffer_Writer : io.Writer bytes.Buffer :=
  { io.Write := bytes.Write }.

#[export] Instance Buffer_Reader : io.Reader bytes.Buffer :=
  { io.Read := bytes.Read }.

#[export] Instance Reader_Reader : io.Reader bytes.Reader :=
  { io.Read := bytes.Reader_Read }.

(** ** testing/iotest: a reader that hands out one byte per call *)

Module iotest.

Record OneByteReader : Type := mkOneByteReader { r : bytes.Buffer }.

(** [if len(p) == 0 { return 0, nil }; return r.r.Read(p[0:1])] *)
Definition Read (o : OneByteReader) (k : Z)
  : OneByteReader * (list byte * option error) :=
  if k =? 0 then (o, ([], None))
  else
    let '(b', res) := bytes.Read (r o) 1 in
    ({| r := b' |}, res).

End iotest.

#[export] Instance OneByteReader_Reader : io.Reader iotest.OneByteReader :=
  { io.Read := iotest.Read }.

(** ** The container (blob.go) *)

Record indexItem : Type := mkIndexItem
  { id : string;
    start : Z;    (* uint64 *)
    end_ : Z }.   (* uint64; the field is named end in the source *)

Record Blob : Type := mkBlob
  { header : list indexItem;
    data : list byte }.

(** [New] returns the empty blob. *)
Definition New : Blob := {| header := []; data := [] |}.

Definition ItemCount (b : Blob) : Z := len (header b).

(** [Append] adds one index entry and the bytes.  [append] panics when the
    new length does not fit an [int]; the sum [len(b.data) + len(data)] is
    computed in [int] and converted to [uint64]. *)
Definition Append (b : Blob) (id' : string) (data' : list byte) : outcome Blob :=
  if len (data b) + len data' <=? MaxInt then
    Ret {| header :=
             header b ++
             [ {| id := id';
                  start := uint64 (len (data b));
                  end_ := uint64 (len (data b) + len data') |} ];
           data := data b ++ data' |}
  else Panic "growslice: len out of range".

(** The loop of [GetByID] over [b.header]: the first entry whose id is
    equal to [id'] decides. *)
Fixpoint GetByID_loop (h : list indexItem) (d : list byte) (id' : string)
  : outcome (list byte * bool) :=
  match h with
  | [] => Ret ([], false)
  | e :: h' =>
      if String.eqb (id e) id' then
        x <- slice d (start e) (end_ e) ;;
        Ret (x, true)
      else GetByID_loop h' d id'
  end.

Definition GetByID (b : Blob) (id' : string) : outcome (list byte * bool) :=
  GetByID_loop (header b) (data b) id'.

Definition GetIDAtIndex (b : Blob) (i : Z) : string :=
  if (i <? 0) || (i >=? len (header b)) then EmptyString
  else
    match nth_error (header b) (Z.to_nat i) with
    | Some e => id e
    | None => EmptyString
    end.

Definition GetByIndex (b : Blob) (i : Z) : outcome (list byte * bool) :=
  if (i <? 0) || (i >=? len (header b)) then Ret ([], false)
  else
    match nth_error (header b) (Z.to_nat i) with
    | Some e =>
        x <- slice (data b) (start e) (end_ e) ;;
        Ret (x, true)
    | None => Panic "index out of range"
    end.

(** The first loop of [Write]: the header is encoded into a [bytes.Buffer],
    entry by entry, every write checked for an error. *)
Fixpoint Write_header (h : list indexItem) (buffer : bytes.Buffer)
  : bytes.Buffer * option error :=
  match h with
  | [] => (buffer, None)
  | e :: h' =>
      let '(buffer1, err1) := binary.Write buffer 2 (uint16 (strlen (id e))) in
      match err1 with
      | Some err =>
          (buffer1,
           Some (errors_New ("writing blob header id length: " ++ Error err)))
      | None =>
          let '(buffer2, (_, err2)) :=
            io.Write buffer1 (list_byte_of_string (id e)) in
          match err2 with
          | Some err =>
              (buffer2,
               Some (errors_New ("writing blob header id: " ++ Error err)))
          | None =>
              let length := uint64 (end_ e - start e) in
              let '(buffer3, err3) := binary.Write buffer2 8 length in
              match err3 with
              | Some err =>
                  (buffer3,
                   Some (errors_New
                           ("writing blob header data length: " ++ Error err)))
              | None => Write_header h' buffer3
              end
          end
      end
  end.

(** [Write]: the receiver after the call, the writer after the call and the
    error. *)
Definition Write {W : Type} `{io.Writer W} (b : Blob) (w : W)
  : Blob * (W * option error) :=
  let '(buffer, err0) := Write_header (header b) (bytes.NewBuffer []) in
  match err0 with
  | Some err => (b, (w, Some err))
  | None =>
      let '(w1, err1) := binary.Write w 4 (uint32 (bytes.Len buffer)) in
      match err1 with
      | Some err =>
          (b, (w1, Some (errors_New
                           ("writing blob header length: " ++ Error err))))
      | None =>
          let '(w2, (_, err2)) := io.Write w1 (bytes.Bytes buffer) in
          match err2 with
          | Some err =>
              (b, (w2, Some (errors_New
                               ("writing blob header: " ++ Error err))))
          | None =>
              let '(w3, (_, err3)) := io.Write w2 (data b) in
              match err3 with
              | Some err =>
                  (b, (w3, Some (errors_New
                                   ("writing blob data: " ++ Error err))))
              | None => (b, (w3, None))
              end
          end
      end
  end.

(** The loop of [Read] that dissects the header:
    [for headerReader.Len() > 0 { ... }].  [fuel] bounds the iterations and
    [fuel0] the loops of the reads inside; the state is the header reader,
    [b.header] and [overallDataLength]. *)
Fixpoint dissect (fuel0 fuel : nat) (headerReader : bytes.Buffer)
  (hdr : list indexItem) (overallDataLength : Z)
  : outcome (list indexItem * Z + error) :=
  if bytes.Len headerReader >? 0 then
    match fuel with
    | O => OutOfFuel
    | S fuel' =>
        '(headerReader1, res1) <- binary.Read fuel0 headerReader 2 ;;
        match res1 with
        | inr err =>
            Ret (inr (errors_New
                        ("reading blob header id length: " ++ Error err)))
        | inl idLength =>
            let '(headerReader2, next) := bytes.Next headerReader1 idLength in
            let id' := string_of_list_byte next in
            if negb (strlen id' =? idLength) then
              Ret (inr (errors_New "reading blob header id: unexpected EOF"))
            else
              '(headerReader3, res3) <- binary.Read fuel0 headerReader2 8 ;;
              match res3 with
              | inr err =>
                  Ret (inr (errors_New
                              ("reading blob header data length: "
                               ++ Error err)))
              | inl dataLength =>
                  dissect fuel0 fuel' headerReader3
                    (hdr ++
                     [ {| id := id';
                          start := overallDataLength;
                          end_ := uint64 (overallDataLength + dataLength) |} ])
                    (uint64 (overallDataLength + dataLength))
              end
        end
    end
  else Ret (inl (hdr, overallDataLength)).

(** [Read]: the reader after the call, the blob (nil on an error) and the
    error.  The header length and the data are read with [io.ReadFull]
    (the former inside [binary.Read]); the header itself with one call of
    [r.Read]. *)
Definition Read {R : Type} `{io.Reader R} (fuel : nat) (r : R)
  : outcome (R * (option Blob * option error)) :=
  '(r1, res) <- binary.Read fuel r 4 ;;
  match res with
  | inr err =>
      Ret (r1, (None,
                Some (errors_New ("reading blob header length: " ++ Error err))))
  | inl headerLength =>
      let header0 := make headerLength in
      let '(r2, (got, err2)) := io.Read r1 (len header0) in
      let header1 := io.stored header0 0 got in
      match err2 with
      | Some err =>
          Ret (r2, (None,
                    Some (errors_New ("reading blob header: " ++ Error err))))
      | None =>
          res' <- dissect fuel fuel (bytes.NewBuffer header1) [] 0 ;;
          match res' with
          | inr err => Ret (r2, (None, Some err))
          | inl (hdr, overallDataLength) =>
              if overallDataLength >? 0 then
                '(r3, (data', (_, err3))) <-
                  io.ReadFull fuel r2 (make overallDataLength) ;;
                match err3 with
                | Some err =>
                    Ret (r3, (None,
                              Some (errors_New
                                      ("reading blob data: " ++ Error err))))
                | None => Ret (r3, (Some {| header := hdr; data := data' |}, None))
                end
              else Ret (r2, (Some {| header := hdr; data := [] |}, None))
          end
      end
  end.

(** The first revision of blob.go dissects the header through a
    [bytes.Reader] and fills the id with [io.ReadFull]; the later revisions,
    modelled above, use a [bytes.Buffer] and [Next].  Everything else in
    [Read] is the same in all revisions. *)
Fixpoint dissect_v1 (fuel0 fuel : nat) (headerReader : bytes.Reader)
  (hdr : list indexItem) (overallDataLength : Z)
  : outcome (list indexItem * Z + error) :=
  if bytes.Reader_Len headerReader >? 0 then
    match fuel with
    | O => OutOfFuel
    | S fuel' =>
        '(headerReader1, res1) <- binary.Read fuel0 headerReader 2 ;;
        match res1 with
        | inr err =>
            Ret (inr (errors_New
                        ("reading blob header id length: " ++ Error err)))
        | inl idLength =>
            '(headerReader2, (id', (_, err2))) <-
              io.ReadFull fuel0 headerReader1 (make idLength) ;;
            match err2 with
            | Some err =>
                Ret (inr (errors_New ("reading blob header id: " ++ Error err)))
            | None =>
                '(headerReader3, res3) <- binary.Read fuel0 headerReader2 8 ;;
                match res3 with
                | inr err =>
                    Ret (inr (errors_New
                                ("reading blob header data length: "
                                 ++ Error err)))
                | inl dataLength =>
                    dissect_v1 fuel0 fuel' headerReader3
                      (hdr ++
                       [ {| id := string_of_list_byte id';
                            start := overallDataLength;
                            end_ := uint64 (overallDataLength + dataLength) |} ])
                      (uint64 (overallDataLength + dataLength))
                end
            end
        end
    end
  else Ret (inl (hdr, overallDataLength)).

Definition Read_v1 {R : Type} `{io.Reader R} (fuel : nat) (r : R)
  : outcome (R * (option Blob * option error)) :=
  '(r1, res) <- binary.Read fuel r 4 ;;
  match res with
  | inr err =>
      Ret (r1, (None,
                Some (errors_New ("reading blob header length: " ++ Error err))))
  | inl headerLength =>
      let header0 := make headerLength in
      let '(r2, (got, err2)) := io.Read r1 (len header0) in
      let header1 := io.stored header0 0 got in
      match err2 with
      | Some err =>
          Ret (r2, (None,
                    Some (errors_New ("reading blob header: " ++ Error err))))
      | None =>
          res' <- dissect_v1 fuel fuel (bytes.NewReader header1) [] 0 ;;
          match res' with
          | inr err => Ret (r2, (None, Some err))
          | inl (hdr, overallDataLength) =>
              if overallDataLength >? 0 then
                '(r3, (data', (_, err3))) <-
                  io.ReadFull fuel r2 (make overallDataLength) ;;
                match err3 with
                | Some err =>
                    Ret (r3, (None,
                              Some (errors_New
                                      ("reading blob data: " ++ Error err))))
                | None => Ret (r3, (Some {| header := hdr; data := data' |}, None))
                end
              else Ret (r2, (Some {| header := hdr; data := [] |}, None))
          end
      end
  end.

(** Two calls agree when both return the same blob or both return an error
    (the two revisions word one error differently), with the reader in the
    same state, or both panic, or both run out of fuel. *)
Definition agree {R : Type} (x y : outcome (R * (option Blob * option error)))
  : Prop :=
  match x, y with
  | Ret (r1, (Some b1, None)), Ret (r2, (Some b2, None)) => r1 = r2 /\ b1 = b2
  | Ret (r1, (None, Some _)), Ret (r2, (None, Some _)) => r1 = r2
  | Panic _, Panic _ => True
  | OutOfFuel, OutOfFuel => True
  | _, _ => False
  end.

(** The result of a read from a [bytes.Buffer], seen as the result of the
    same read from a [bytes.Reader] over the same bytes. *)
Definition as_Reader {A : Type} (x : outcome (bytes.Buffer * A))
  : outcome (bytes.Reader * A) :=
  match x with
  | Ret (l, a) => Ret (bytes.NewReader l, a)
  | Panic msg => Panic msg
  | OutOfFuel => OutOfFuel
  end.

(** The error [io.ReadFull] reports when the source ends too early. *)
Definition short_read_error (l : list byte) : error :=
  match l with
  | [] => EOF
  | _ :: _ => ErrUnexpectedEOF
  end.

(** ** Notions the properties are stated with *)

(** A sequence of [Append] calls, in order, starting from [b]. *)
Fixpoint AppendAll (b : Blob) (items : list (string * list byte)) : outcome Blob :=
  match items with
  | [] => Ret b
  | (id', data') :: items' =>
      b' <- Append b id' data' ;;
      AppendAll b' items'
  end.

(** The index invariant of a container that holds [items], the
    (id, data) pairs, in this order: one entry per item with the item's id;
    the first entry starts at 0; every other entry starts where the one
    before it ends; an entry is as long as its item's data; the buffer is
    the items' data one after the other and ends where the last entry ends. *)
Definition IndexInvariant (items : list (string * list byte)) (b : Blob) : Prop :=
  map id (header b) = map fst items /\
  (forall e, nth_error (header b) 0 = Some e -> start e = 0) /\
  (forall i e e',
      nth_error (header b) i = Some e ->
      nth_error (header b) (S i) = Some e' ->
      start e' = end_ e) /\
  (forall i e p,
      nth_error (header b) i = Some e ->
      nth_error items i = Some p ->
      end_ e - start e = len (snd p)) /\
  len (data b) = last (map end_ (header b)) 0 /\
  data b = concat (map snd items).

(** The same layout, entry by entry from offset [from]. *)
Fixpoint laid_out (from : Z) (h : list indexItem) (items : list (string * list byte))
  : Prop :=
  match h, items with
  | [], [] => True
  | e :: h', p :: items' =>
      id e = fst p /\ start e = from /\ end_ e = from + len (snd p) /\
      laid_out (end_ e) h' items'
  | _, _ => False
  end.

(** Entries that follow one another from offset [from] up to offset [to]. *)
Fixpoint chained (from : Z) (h : list indexItem) (to : Z) : Prop :=
  match h with
  | [] => from = to
  | e :: h' => start e = from /\ chained (end_ e) h' to
  end.

(** The encoded size of a header: 2 + len(id) + 8 bytes per entry. *)
Definition header_size (h : list indexItem) : Z :=
  fold_right (fun e acc => 2 + strlen (id e) + 8 + acc) 0 h.

(** The bytes [Write_header] appends for one entry and for a header. *)
Definition encode_entry (e : indexItem) : list byte :=
  le_split 2 (uint16 (strlen (id e))) ++
  list_byte_of_string (id e) ++
  le_split 8 (uint64 (end_ e - start e)).

Definition encode_header (h : list indexItem) : list byte :=
  flat_map encode_entry h.

(** A header entry as the format describes it: a 2-byte length of the id,
    the id, an 8-byte length of the data. *)
Definition entry_bytes (en : list byte * Z) : list byte :=
  le_split 2 (len (fst en)) ++ fst en ++ le_split 8 (snd en).

Definition entry_ok (en : list byte * Z) : Prop :=
  len (fst en) < 2 ^ 16 /\ 0 <= snd en < 2 ^ 64.

Definition declared_total (ens : list (list byte * Z)) : Z :=
  fold_right (fun en acc => snd en + acc) 0 ens.


(** The index that the dissecting loop builds from such entries, the running
    offset starting at [from]. *)
Fixpoint decode_entries (from : Z) (ens : list (list byte * Z)) : list indexItem :=
  match ens with
  | [] => []
  | en :: ens' =>
      {| id := string_of_list_byte (fst en);
         start := from;
         end_ := uint64 (from + snd en) |}
      :: decode_entries (uint64 (from + snd en)) ens'
  end.

Fixpoint final_offset (from : Z) (ens : list (list byte * Z)) : Z :=
  match ens with
  | [] => from
  | en :: ens' => final_offset (uint64 (from + snd en)) ens'
  end.

(** The header entry an appended item is written as. *)
Definition item_entry (p : string * list byte) : list byte * Z :=
  (list_byte_of_string (fst p), len (snd p)).

(** A string of [n] copies of one character, and bytes given by number. *)
Fixpoint string_repeat (c : Ascii.ascii) (n : nat) : string :=
  match n with
  | O => EmptyString
  | S n' => String c (string_repeat c n')
  end.

Definition bytes_of (l : list Z) : list byte := map byte.of_Z l.

(** A container with a repeated id, used to instantiate the properties:
    the items ("x", [9]), ("a", [1, 2]), ("a", [4]). *)
Definition example_items : list (string * list byte) :=
  [ ("x"%string, bytes_of [9]);
    ("a"%string, bytes_of [1; 2]);
    ("a"%string, bytes_of [4]) ].

Definition example_blob : Blob :=
  {| header := [ {| id := "x"; start := 0; end_ := 1 |};
                 {| id := "a"; start := 1; end_ := 3 |};
                 {| id := "a"; start := 3; end_ := 4 |} ];
     data := bytes_of [9; 1; 2; 4] |}.

(** The items of the package's test of the access functions. *)
Definition access_items : list (string * list byte) :=
  [ ("one"%string, bytes_of [1; 2; 3]); ("two"%string, bytes_of [4; 5]) ].

Definition access_blob : Blob :=
  {| header := [ {| id := "one"; start := 0; end_ := 3 |};
                 {| id := "two"; start := 3; end_ := 5 |} ];
     data := bytes_of [1; 2; 3; 4; 5] |}.

(** A writer whose every [Write] fails, as a closed file does. *)
Inductive closedWriter : Type := mkClosedWriter.

#[export] Instance closedWriter_Writer : io.Writer closedWriter :=
  { io.Write := fun w _ => (w, (0, Some (errors_New "file already closed"))) }.

(** A writer that accepts a number of writes and fails every write after
    them, as a full disk does; it keeps what it accepted. *)
Record countdownWriter : Type := mkCountdownWriter
  { accepts : nat;
    accepted : list byte }.

#[export] Instance countdownWriter_Writer : io.Writer countdownWriter :=
  { io.Write := fun w p =>
      match accepts w with
      | O => (w, (0, Some (errors_New "no space left on device")))
      | S k => ({| accepts := k; accepted := accepted w ++ p |}, (len p, None))
      end }.


(** * Properties *)

(** ** Lengths *)

Lemma len_nil (A : Type) : len (@nil A) = 0.
Proof. reflexivity. Qed.

Lemma len_app (A : Type) (l1 l2 : list A) : len (l1 ++ l2) = len l1 + len l2.
Proof. unfold len. rewrite length_app. lia. Qed.

Lemma len_cons (A : Type) (x : A) (l : list A) : len (x :: l) = 1 + len l.
Proof. unfold len. cbn [List.length]. lia. Qed.

Lemma len_nonneg (A : Type) (l : list A) : 0 <= len l.
Proof. unfold len. lia. Qed.

Lemma len_le_split (n : nat) (z : Z) : len (le_split n z) = Z.of_nat n.
Proof. unfold len. now rewrite length_le_split. Qed.

Lemma len_make (n : Z) : 0 <= n -> len (make n) = n.
Proof. intros Hn. unfold len, make. rewrite repeat_length. lia. Qed.

Lemma len_zero_nil (A : Type) (l : list A) : len l = 0 -> l = [].
Proof. destruct l; [reflexivity|]. rewrite len_cons. pose proof (len_nonneg l). lia. Qed.

Lemma length_list_byte_of_string (s : string) :
  List.length (list_byte_of_string s) = String.length s.
Proof.
  unfold list_byte_of_string. rewrite length_map.
  induction s as [|c s IH]; cbn; [reflexivity | now rewrite IH].
Qed.

Lemma len_list_byte_of_string (s : string) : len (list_byte_of_string s) = strlen s.
Proof. unfold len, strlen. now rewrite length_list_byte_of_string. Qed.

Lemma strlen_string_of_list_byte (l : list byte) :
  strlen (string_of_list_byte l) = len l.
Proof.
  rewrite <- len_list_byte_of_string.
  now rewrite list_byte_of_string_of_list_byte.
Qed.

Lemma strlen_nonneg (s : string) : 0 <= strlen s.
Proof. unfold strlen. lia. Qed.

Lemma strlen_string_repeat (c : Ascii.ascii) (n : nat) :
  strlen (string_repeat c n) = Z.of_nat n.
Proof.
  unfold strlen. f_equal. induction n as [|n IH]; cbn; [reflexivity | now rewrite IH].
Qed.

Create Rewrite HintDb len.

#[export] Hint Rewrite len_nil len_app len_cons len_le_split
  len_list_byte_of_string strlen_string_of_list_byte : len.

(** ** Writing into a [bytes.Buffer] *)

Lemma Write_header_Buffer (h : list indexItem) (buffer : bytes.Buffer) :
  Write_header h buffer = (buffer ++ encode_header h, None).
Proof.
  revert buffer. induction h as [|e h IH]; intros buffer.
  - cbn. now rewrite app_nil_r.
  - cbn [Write_header]. unfold binary.Write. cbn [io.Write Buffer_Writer bytes.Write].
    rewrite IH.
    change (encode_header (e :: h)) with (encode_entry e ++ encode_header h).
    unfold encode_entry. now rewrite <- !app_assoc.
Qed.

Lemma len_encode_header (h : list indexItem) :
  len (encode_header h) = header_size h.
Proof.
  induction h as [|e h IH]; [reflexivity|].
  change (encode_header (e :: h)) with (encode_entry e ++ encode_header h).
  change (header_size (e :: h)) with (2 + strlen (id e) + 8 + header_size h).
  unfold encode_entry. autorewrite with len. rewrite IH. lia.
Qed.

Lemma Write_Buffer (b : Blob) (w : bytes.Buffer) :
  Write b w =
  (b, (w ++ le_split 4 (uint32 (header_size (header b))) ++
         encode_header (header b) ++ data b, None)).
Proof.
  unfold Write. rewrite Write_header_Buffer. unfold binary.Write.
  cbn [io.Write Buffer_Writer bytes.Write bytes.NewBuffer bytes.Len bytes.Bytes app].
  rewrite len_encode_header. now rewrite <- !app_assoc.
Qed.

(** [Write] returns its receiver as it found it, whatever the writer does. *)
Lemma Write_receiver (W : Type) `{io.Writer W} (b : Blob) (w : W) :
  fst (Write b w) = b.
Proof.
  unfold Write.
  destruct (Write_header (header b) (bytes.NewBuffer [])) as [buffer [err|]];
    [reflexivity|].
  destruct (binary.Write w 4 (uint32 (bytes.Len buffer))) as [w1 [err|]];
    [reflexivity|].
  destruct (io.Write w1 (bytes.Bytes buffer)) as [w2 [n2 [err|]]]; [reflexivity|].
  destruct (io.Write w2 (data b)) as [w3 [n3 [err|]]]; reflexivity.
Qed.

(** ** Reading from a [bytes.Buffer] *)

#[export] Instance Buffer_ReaderOk : io.ReaderOk bytes.Buffer.
Proof.
  constructor. intros r k Hk. cbn [io.Read Buffer_Reader]. unfold bytes.Read.
  destruct r as [|x r]; [destruct (k =? 0); cbn; lia|].
  cbn [fst snd]. unfold len. rewrite length_firstn. lia.
Qed.

Lemma stored_all (buf p : list byte) :
  List.length buf = List.length p -> io.stored buf 0 p = p.
Proof.
  intros Hl. unfold io.stored. cbn [Z.to_nat firstn Nat.add app].
  rewrite <- Hl, skipn_all. apply app_nil_r.
Qed.

(** When the buffer holds the wanted bytes, [io.ReadFull] takes them in one
    read. *)
Lemma ReadFull_Buffer (fuel : nat) (p rest buf : list byte) :
  (1 <= fuel)%nat ->
  List.length buf = List.length p ->
  io.ReadFull fuel (p ++ rest : bytes.Buffer) buf = Ret (rest, (p, (len p, None))).
Proof.
  intros Hfuel Hl. unfold io.ReadFull, io.ReadAtLeast.
  rewrite Z.ltb_irrefl.
  destruct fuel as [|fuel]; [lia|].
  assert (Hlen : len buf = len p) by (unfold len; now rewrite Hl).
  cbn [io.ReadAtLeast_loop]. rewrite Hlen.
  destruct p as [|x p].
  - destruct buf; [|discriminate]. cbn. reflexivity.
  - replace (0 <? len (x :: p)) with true
      by (symmetry; apply Z.ltb_lt; rewrite len_cons; pose proof (len_nonneg p); lia).
    cbn [andb is_nil io.Read Buffer_Reader]. unfold bytes.Read.
    cbn [app].
    replace (Z.to_nat (Z.min (len (x :: p) - 0) (len (x :: p ++ rest))))
      with (List.length (x :: p)).
    2:{ change (x :: p ++ rest) with ((x :: p) ++ rest). rewrite len_app.
        pose proof (len_nonneg rest). unfold len in *. lia. }
    change (x :: p ++ rest) with ((x :: p) ++ rest).
    rewrite firstn_app, Nat.sub_diag, firstn_all, firstn_O, app_nil_r.
    rewrite skipn_app, Nat.sub_diag, skipn_all, skipn_O. cbn [app].
    rewrite stored_all by assumption.
    destruct fuel; cbn [io.ReadAtLeast_loop];
      rewrite Z.add_0_l, Z.ltb_irrefl; cbn [andb bind];
      replace (len (x :: p) >=? len (x :: p)) with true
        by (symmetry; apply Z.geb_le; lia); reflexivity.
Qed.

Lemma length_make (n : nat) : List.length (make (Z.of_nat n)) = n.
Proof. unfold make. now rewrite repeat_length, Nat2Z.id. Qed.

Lemma binary_Read_Buffer (fuel size : nat) (p rest : list byte) :
  (1 <= fuel)%nat ->
  List.length p = size ->
  binary.Read fuel (p ++ rest : bytes.Buffer) size = Ret (rest, inl (le_combine p)).
Proof.
  intros Hfuel Hl. unfold binary.Read.
  rewrite ReadFull_Buffer by (rewrite ?length_make; auto).
  reflexivity.
Qed.

Lemma le_combine_split_small (n : nat) (z : Z) :
  0 <= z < 2 ^ (Z.of_nat n * 8) -> le_combine (le_split n z) = z.
Proof. intros Hz. rewrite le_combine_split. now apply Z.mod_small. Qed.

Lemma Next_Buffer (p rest : list byte) :
  bytes.Next (p ++ rest) (len p) = (rest, p).
Proof.
  unfold bytes.Next, bytes.Len.
  replace (len p >? len (p ++ rest)) with false.
  2:{ symmetry. rewrite len_app. pose proof (len_nonneg rest).
      destruct (Z.gtb_spec (len p) (len p + len rest)); [lia | reflexivity]. }
  unfold len. rewrite Nat2Z.id.
  rewrite firstn_app, Nat.sub_diag, firstn_all, firstn_O, app_nil_r.
  rewrite skipn_app, Nat.sub_diag, skipn_all, skipn_O. reflexivity.
Qed.

Lemma final_offset_total (ens : list (list byte * Z)) (from : Z) :
  0 <= from < 2 ^ 64 ->
  final_offset from ens = uint64 (from + declared_total ens).
Proof.
  revert from. induction ens as [|en ens IH]; intros from Hfrom.
  - cbn. unfold uint64. rewrite Z.add_0_r. symmetry. now apply Z.mod_small.
  - cbn [final_offset declared_total fold_right]. fold (declared_total ens).
    rewrite IH by (unfold uint64; apply Z.mod_pos_bound; lia).
    unfold uint64. rewrite Zplus_mod_idemp_l. f_equal. lia.
Qed.

(** The dissecting loop on a header made of whole entries. *)
Lemma dissect_entries (fuel0 : nat) (ens : list (list byte * Z)) :
  (1 <= fuel0)%nat ->
  Forall entry_ok ens ->
  forall (fuel : nat) (hdr : list indexItem) (from : Z),
    (List.length ens <= fuel)%nat ->
    dissect fuel0 fuel (bytes.NewBuffer (flat_map entry_bytes ens)) hdr from =
    Ret (inl (hdr ++ decode_entries from ens, final_offset from ens)).
Proof.
  intros Hfuel0 Hok. induction Hok as [|[idb n] ens [Hid Hn] Hok IH];
    intros fuel hdr from Hfuel.
  - destruct fuel; cbn; now rewrite app_nil_r.
  - destruct fuel as [|fuel]; [cbn in Hfuel; lia|].
    cbn [flat_map]. unfold entry_bytes at 1. cbn [fst snd] in *.
    unfold bytes.NewBuffer in *. cbn [dissect].
    replace (bytes.Len _ >? 0) with true.
    2:{ symmetry. apply Z.gtb_lt. unfold bytes.Len. autorewrite with len.
        pose proof (len_nonneg idb).
        pose proof (len_nonneg (flat_map entry_bytes ens)). lia. }
    rewrite <- !app_assoc.
    rewrite binary_Read_Buffer by (auto using length_le_split).
    cbn [bind].
    rewrite le_combine_split_small by (pose proof (len_nonneg idb); cbn; lia).
    rewrite Next_Buffer. rewrite strlen_string_of_list_byte, Z.eqb_refl.
    cbn [negb].
    rewrite binary_Read_Buffer by (auto using length_le_split).
    cbn [bind]. rewrite le_combine_split_small by (cbn; lia).
    rewrite IH by (cbn in Hfuel; lia).
    cbn [decode_entries final_offset fst snd]. now rewrite <- app_assoc.
Qed.

(** [Read] on the bytes of a header length, a header of whole entries and
    the data: the index is rebuilt from the declared lengths and the buffer
    is the data. *)
Lemma Read_archive (fuel : nat) (ens : list (list byte * Z)) (d : list byte) :
  (1 <= fuel)%nat ->
  (List.length ens <= fuel)%nat ->
  Forall entry_ok ens ->
  len (flat_map entry_bytes ens) < 2 ^ 32 ->
  len d = final_offset 0 ens ->
  Read fuel (bytes.NewBuffer
               (le_split 4 (len (flat_map entry_bytes ens)) ++
                flat_map entry_bytes ens ++ d)) =
  Ret ([], (Some {| header := decode_entries 0 ens; data := d |}, None)).
Proof.
  intros Hfuel Hens Hok Hsize Hd. unfold Read, bytes.NewBuffer.
  set (hdr := flat_map entry_bytes ens) in *.
  pose proof (len_nonneg hdr) as Hhdr.
  rewrite binary_Read_Buffer by (auto using length_le_split).
  cbn [bind]. rewrite le_combine_split_small by (cbn; lia).
  rewrite len_make by lia.
  assert (Hread : io.Read (hdr ++ d : bytes.Buffer) (len hdr) = (d, (hdr, None))).
  { cbn [io.Read Buffer_Reader]. unfold bytes.Read.
    destruct (hdr ++ d) as [|x l] eqn:E.
    - apply app_eq_nil in E. destruct E as [-> ->]. reflexivity.
    - rewrite <- E.
      replace (Z.to_nat (Z.min (len hdr) (len (hdr ++ d)))) with (List.length hdr)
        by (rewrite len_app; pose proof (len_nonneg d); unfold len in *; lia).
      rewrite firstn_app, Nat.sub_diag, firstn_all, firstn_O, app_nil_r.
      rewrite skipn_app, Nat.sub_diag, skipn_all, skipn_O. reflexivity. }
  rewrite Hread.
  rewrite stored_all
    by (unfold make; rewrite repeat_length; unfold len; now rewrite Nat2Z.id).
  change hdr with (bytes.NewBuffer (flat_map entry_bytes ens)).
  rewrite dissect_entries by assumption.
  cbn [bind app]. rewrite <- Hd.
  destruct (Z.gtb_spec (len d) 0) as [Hpos|Hzero].
  - rewrite <- (app_nil_r d) at 1.
    rewrite ReadFull_Buffer; [reflexivity | assumption |].
    unfold make. rewrite repeat_length. unfold len. now rewrite Nat2Z.id.
  - pose proof (len_nonneg d).
    assert (d = []) as -> by (apply len_zero_nil; lia). reflexivity.
Qed.

(** ** Encoding a rebuilt index gives the header back *)

Lemma uint64_sub_add (from n : Z) :
  0 <= n < 2 ^ 64 -> uint64 (uint64 (from + n) - from) = n.
Proof.
  intros Hn. unfold uint64. rewrite Zminus_mod_idemp_l.
  replace (from + n - from) with n by lia. now apply Z.mod_small.
Qed.

Lemma encode_decode_entries (ens : list (list byte * Z)) :
  Forall entry_ok ens ->
  forall from, encode_header (decode_entries from ens) = flat_map entry_bytes ens.
Proof.
  induction 1 as [|[idb n] ens [Hid Hn] Hok IH]; intros from; [reflexivity|].
  cbn [decode_entries flat_map fst snd] in *.
  change (encode_header (?e :: ?h)) with (encode_entry e ++ encode_header h).
  rewrite IH. f_equal. unfold encode_entry, entry_bytes. cbn [id start end_ fst snd].
  rewrite strlen_string_of_list_byte, list_byte_of_string_of_list_byte.
  rewrite uint64_sub_add by assumption.
  unfold uint16. rewrite Z.mod_small by (pose proof (len_nonneg idb); lia).
  reflexivity.
Qed.




(** ** What [Write] emits *)

(** C8.  Appending ("id", [1,2,3]) to a new container and writing it gives
    12,0,0,0, 2,0,'i','d', 3,0,0,0,0,0,0,0, 1,2,3; the empty container
    writes the four bytes 0,0,0,0. *)
Theorem Write_concrete_scenarios :
  (exists b : Blob,
      Append New "id" (bytes_of [1; 2; 3]) = Ret b /\
      Write b (bytes.NewBuffer []) =
      (b, (bytes_of [12; 0; 0; 0; 2; 0] ++ list_byte_of_string "id" ++
           bytes_of [3; 0; 0; 0; 0; 0; 0; 0; 1; 2; 3], None))) /\
  Write New (bytes.NewBuffer []) = (New, (bytes_of [0; 0; 0; 0], None)).
Proof.
  split.
  - eexists. split; reflexivity.
  - reflexivity.
Qed.

(** Whatever the container, the four bytes written first hold the size of
    the encoded header modulo 2^32. *)
Lemma Write_header_length_wraps (b : Blob) (w : bytes.Buffer) :
  exists hl hdr : list byte,
    Write b w = (b, (w ++ hl ++ hdr ++ data b, None)) /\
    List.length hl = 4%nat /\
    len hdr = header_size (header b) /\
    le_combine hl = header_size (header b) mod 2 ^ 32.
Proof.
  exists (le_split 4 (uint32 (header_size (header b)))), (encode_header (header b)).
  split; [apply Write_Buffer|]. split; [apply length_le_split|].
  split; [apply len_encode_header|].
  rewrite le_combine_split. unfold uint32.
  change (2 ^ (Z.of_nat 4 * 8)) with (2 ^ 32). apply Z.mod_mod. lia.
Qed.

Lemma header_size_nonneg (h : list indexItem) : 0 <= header_size h.
Proof.
  induction h as [|e h IH]; [cbn; lia|].
  change (header_size (e :: h)) with (2 + strlen (id e) + 8 + header_size h).
  pose proof (strlen_nonneg (id e)). lia.
Qed.

(** C6, amended.  For every container whose encoded header is shorter than
    2^32 bytes, [Write] emits the header length, the header and the data,
    and the 4-byte header length is the exact size of the header that
    follows it, the sum over the entries of 2 + len(id) + 8. *)
Theorem Write_header_length_exact (b : Blob) (w : bytes.Buffer) :
  header_size (header b) < 2 ^ 32 ->
  exists hl hdr : list byte,
    Write b w = (b, (w ++ hl ++ hdr ++ data b, None)) /\
    List.length hl = 4%nat /\
    len hdr = fold_right (fun e acc => 2 + strlen (id e) + 8 + acc) 0 (header b) /\
    le_combine hl = len hdr.
Proof.
  intros Hsize.
  destruct (Write_header_length_wraps b w) as (hl & hdr & HW & Hl4 & Hlen & Hval).
  exists hl, hdr. repeat split; try assumption.
  rewrite Hval, Hlen. apply Z.mod_small.
  pose proof (header_size_nonneg (header b)). lia.
Qed.

Lemma Write_header_length_exact_witness :
  exists hl hdr : list byte,
    Write {| header := [ {| id := "id"; start := 0; end_ := 3 |} ];
             data := bytes_of [1; 2; 3] |} (bytes.NewBuffer []) =
    ({| header := [ {| id := "id"; start := 0; end_ := 3 |} ];
        data := bytes_of [1; 2; 3] |},
     ([] ++ hl ++ hdr ++ bytes_of [1; 2; 3], None)) /\
    List.length hl = 4%nat /\
    len hdr = 2 + strlen "id" + 8 + 0 /\
    le_combine hl = len hdr.
Proof.
  apply (Write_header_length_exact
           {| header := [ {| id := "id"; start := 0; end_ := 3 |} ];
              data := bytes_of [1; 2; 3] |} (bytes.NewBuffer [])).
  vm_compute. reflexivity.
Defined.

Lemma header_size_repeat (e : indexItem) (n : nat) :
  header_size (repeat e n) = Z.of_nat n * (10 + strlen (id e)).
Proof.
  induction n as [|n IH]; [reflexivity|].
  change (header_size (repeat e (S n)))
    with (2 + strlen (id e) + 8 + header_size (repeat e n)).
  rewrite IH. lia.
Qed.

Lemma AppendAll_repeat_empty (s : string) (n : nat) (h : list indexItem) :
  AppendAll {| header := h; data := [] |} (repeat (s, []) n) =
  Ret {| header := h ++ repeat {| id := s; start := 0; end_ := 0 |} n;
         data := [] |}.
Proof.
  revert h. induction n as [|n IH]; intros h.
  - cbn [repeat AppendAll]. now rewrite app_nil_r.
  - cbn [repeat AppendAll]. unfold Append. cbn [data header app].
    change (len (@nil byte) + len (@nil byte) <=? MaxInt) with true. cbn iota.
    change (uint64 (len (@nil byte) + len (@nil byte))) with 0.
    change (uint64 (len (@nil byte))) with 0. cbn [bind].
    rewrite IH. now rewrite <- app_assoc.
Qed.

(** C6 as stated fails: 65536 appended items with ids of 65526 bytes make
    a header of exactly 2^32 bytes, and the header length written is 0. *)
Lemma Write_header_length_counterexample :
  exists (b : Blob) (hl hdr : list byte),
    AppendAll New (repeat (string_repeat "a"%char (Z.to_nat 65526), [])
                          (Z.to_nat 65536)) = Ret b /\
    Write b (bytes.NewBuffer []) =
    (b, (bytes.NewBuffer [] ++ hl ++ hdr ++ data b, None)) /\
    List.length hl = 4%nat /\
    len hdr = header_size (header b) /\
    header_size (header b) = 4294967296 /\
    le_combine hl = 0.
Proof.
  pose (e := {| id := string_repeat "a"%char (Z.to_nat 65526);
                start := 0; end_ := 0 |}).
  pose (b := {| header := [] ++ repeat e (Z.to_nat 65536); data := [] |}).
  assert (Hsize : header_size (header b) = 4294967296).
  { unfold b. cbn [header app]. rewrite header_size_repeat. unfold e. cbn [id].
    rewrite strlen_string_repeat, !Z2Nat.id by lia. reflexivity. }
  destruct (Write_header_length_wraps b (bytes.NewBuffer []))
    as (hl & hdr & HW & Hl4 & Hlen & Hval).
  exists b, hl, hdr. split; [|split; [exact HW|]].
  - unfold New. apply AppendAll_repeat_empty.
  - split; [exact Hl4|]. split; [exact Hlen|]. split; [exact Hsize|].
    rewrite Hval, Hsize. reflexivity.
Qed.

(** A [bytes.Buffer] accepts every write, so [Write] into one returns a nil
    error for every container: no identifier is rejected for its length. *)
Lemma Write_Buffer_never_fails (b : Blob) (w : bytes.Buffer) :
  snd (snd (Write b w)) = None.
Proof. now rewrite Write_Buffer. Qed.

(** C2 at the failing input.  An identifier of 65536 bytes is appended and
    written: [Write] returns a nil error, the header length is 65546, the
    2-byte length field of the identifier wraps to 0 and all 65536 bytes of
    the identifier follow it. *)
Theorem Write_accepts_identifier_of_65536_bytes :
  exists b : Blob,
    Append New (string_repeat "a"%char (Z.to_nat 65536)) [] = Ret b /\
    Write b (bytes.NewBuffer []) =
    (b, (bytes.NewBuffer [] ++ bytes_of [10; 0; 1; 0] ++
         (bytes_of [0; 0] ++
          list_byte_of_string (string_repeat "a"%char (Z.to_nat 65536)) ++
          bytes_of [0; 0; 0; 0; 0; 0; 0; 0]) ++ [], None)).
Proof.
  pose (e := {| id := string_repeat "a"%char (Z.to_nat 65536);
                start := 0; end_ := 0 |}).
  exists {| header := [e]; data := [] |}. split; [reflexivity|].
  rewrite Write_Buffer. cbn [header data].
  assert (Hlen : strlen (id e) = 65536)
    by (unfold e; cbn [id]; rewrite strlen_string_repeat; lia).
  assert (Hsize : header_size [e] = 65546).
  { change (header_size [e]) with (2 + strlen (id e) + 8 + 0). rewrite Hlen.
    reflexivity. }
  rewrite Hsize.
  change (encode_header [e]) with (encode_entry e ++ []).
  unfold encode_entry. rewrite Hlen. reflexivity.
Qed.

(** ** [Write] and its receiver *)

(** C9.  [Write] leaves the container as it found it, whether it returns an
    error or not and whatever the writer is: the index and the buffer are
    those of before, every lookup answers as before, and another [Write]
    behaves as if the first had not been made. *)
Theorem Write_does_not_modify_container (W : Type) `{io.Writer W}
  (b : Blob) (w : W) :
  let b' := fst (Write b w) in
  header b' = header b /\
  data b' = data b /\
  ItemCount b' = ItemCount b /\
  (forall id', GetByID b' id' = GetByID b id') /\
  (forall i, GetByIndex b' i = GetByIndex b i) /\
  (forall i, GetIDAtIndex b' i = GetIDAtIndex b i) /\
  (forall w0 : W, Write b' w0 = Write b w0).
Proof.
  cbv zeta. rewrite Write_receiver. repeat split; reflexivity.
Qed.

(** Written twice into a [bytes.Buffer], a container gives the same bytes
    twice. *)
Lemma Write_twice_Buffer (b : Blob) (w : bytes.Buffer) :
  let '(b1, (w1, err1)) := Write b w in
  let '(b2, (w2, err2)) := Write b1 w1 in
  exists out : list byte,
    w1 = w ++ out /\ w2 = w1 ++ out /\ err1 = None /\ err2 = None /\ b2 = b.
Proof.
  rewrite Write_Buffer. rewrite Write_Buffer.
  eexists. repeat split.
Qed.

(** ** The index invariant and the lookups *)

Lemma slice_middle (pre d rest : list byte) :
  slice (pre ++ d ++ rest) (len pre) (len pre + len d) = Ret d.
Proof.
  unfold slice.
  replace ((0 <=? len pre) && (len pre <=? len pre + len d)
           && (len pre + len d <=? len (pre ++ d ++ rest))) with true.
  2:{ symmetry. rewrite !andb_true_iff, !Z.leb_le, !len_app.
      pose proof (len_nonneg pre). pose proof (len_nonneg d).
      pose proof (len_nonneg rest). lia. }
  f_equal. replace (len pre + len d - len pre) with (len d) by lia.
  unfold len. rewrite !Nat2Z.id.
  rewrite skipn_app, Nat.sub_diag, skipn_all, skipn_O. cbn [app].
  now rewrite firstn_app, Nat.sub_diag, firstn_all, firstn_O, app_nil_r.
Qed.

(** From the invariant as stated to the layout entry by entry. *)
Lemma conditions_laid_out (h : list indexItem) :
  forall (items : list (string * list byte)) (from : Z),
    map id h = map fst items ->
    (forall e, nth_error h 0 = Some e -> start e = from) ->
    (forall i e e',
        nth_error h i = Some e -> nth_error h (S i) = Some e' ->
        start e' = end_ e) ->
    (forall i e p,
        nth_error h i = Some e -> nth_error items i = Some p ->
        end_ e - start e = len (snd p)) ->
    laid_out from h items.
Proof.
  induction h as [|e h IH]; intros [|p items] from Hid H0 Hnext Hlen;
    try discriminate; [exact I|].
  cbn [map] in Hid. injection Hid as Hid1 Hid.
  pose proof (H0 e eq_refl) as Hs. pose proof (Hlen 0%nat e p eq_refl eq_refl) as Hl.
  cbn [laid_out]. repeat split; [assumption | assumption | lia |].
  apply IH.
  - assumption.
  - intros e' He'. apply (Hnext 0%nat e e'); [reflexivity | exact He'].
  - intros i e1 e2 H1 H2. apply (Hnext (S i) e1 e2); assumption.
  - intros i e1 p1 H1 H2. apply (Hlen (S i) e1 p1); assumption.
Qed.

Lemma invariant_laid_out (items : list (string * list byte)) (b : Blob) :
  IndexInvariant items b -> laid_out 0 (header b) items.
Proof.
  intros (Hid & H0 & Hnext & Hlen & _ & _). now apply conditions_laid_out.
Qed.

Lemma last_cons_default (A : Type) (l : list A) (x d d' : A) :
  last (x :: l) d = last (x :: l) d'.
Proof.
  revert x. induction l as [|y l IH]; intros x; [reflexivity|].
  change (last (x :: y :: l) d) with (last (y :: l) d).
  change (last (x :: y :: l) d') with (last (y :: l) d'). apply IH.
Qed.

(** From the layout entry by entry to the invariant as stated. *)
Lemma laid_out_conditions (h : list indexItem) :
  forall (items : list (string * list byte)) (from : Z),
    laid_out from h items ->
    map id h = map fst items /\
    (forall e, nth_error h 0 = Some e -> start e = from) /\
    (forall i e e',
        nth_error h i = Some e -> nth_error h (S i) = Some e' ->
        start e' = end_ e) /\
    (forall i e p,
        nth_error h i = Some e -> nth_error items i = Some p ->
        end_ e - start e = len (snd p)) /\
    last (map end_ h) from = from + len (concat (map snd items)).
Proof.
  induction h as [|e h IH]; intros [|p items] from Hl; cbn [laid_out] in Hl;
    try contradiction.
  - repeat split; try (intros; destruct i; discriminate); try discriminate.
    cbn. lia.
  - destruct Hl as (Hid & Hs & He & Hl).
    destruct (IH _ _ Hl) as (IHid & IH0 & IHnext & IHlen & IHlast).
    split; [cbn [map]; congruence|].
    split; [intros e0 [= <-]; assumption|].
    split.
    { intros [|i] e1 e2 H1 H2.
      - injection H1 as <-. cbn [nth_error] in H2. apply IH0. exact H2.
      - apply (IHnext i); assumption. }
    split.
    { intros [|i] e1 p1 H1 H2.
      - injection H1 as <-. injection H2 as <-. lia.
      - apply (IHlen i); assumption. }
    cbn [map concat]. rewrite len_app.
    change (last (end_ e :: map end_ h) from)
      with (match map end_ h with [] => end_ e | _ :: _ => last (map end_ h) from end).
    destruct h as [|e' h].
    + destruct items; [|contradiction]. cbn. lia.
    + cbn [map]. cbn [map] in IHlast.
      rewrite (last_cons_default (map end_ h) (end_ e') from (end_ e)).
      rewrite IHlast. lia.
Qed.

Lemma laid_out_invariant (items : list (string * list byte)) (b : Blob) :
  laid_out 0 (header b) items ->
  data b = concat (map snd items) ->
  IndexInvariant items b.
Proof.
  intros Hl Hd.
  destruct (laid_out_conditions _ _ _ Hl) as (Hid & H0 & Hnext & Hlen & Hlast).
  repeat split; try assumption.
  rewrite Hlast, Hd. lia.
Qed.

(** Under the layout every entry's bounds cut its item's data out of the
    buffer. *)
Lemma laid_out_lookup (h : list indexItem) :
  forall (items : list (string * list byte)) (from : Z) (pre : list byte)
         (i : nat) (e : indexItem) (p : string * list byte),
    laid_out from h items ->
    len pre = from ->
    nth_error h i = Some e ->
    nth_error items i = Some p ->
    id e = fst p /\
    slice (pre ++ concat (map snd items)) (start e) (end_ e) = Ret (snd p).
Proof.
  induction h as [|e0 h IH]; intros [|p0 items] from pre i e p Hl Hpre He Hp;
    cbn [laid_out] in Hl; try contradiction; try (destruct i; discriminate).
  destruct Hl as (Hid & Hs & Hend & Hl).
  destruct i as [|i].
  - injection He as <-. injection Hp as <-. split; [assumption|].
    cbn [map concat]. rewrite Hend, Hs, <- Hpre. apply slice_middle.
  - cbn [nth_error] in He, Hp. cbn [map concat]. rewrite app_assoc.
    apply (IH items (end_ e0) (pre ++ snd p0) i e p); try assumption.
    rewrite len_app. lia.
Qed.

Lemma laid_out_length (h : list indexItem) :
  forall (items : list (string * list byte)) (from : Z),
    laid_out from h items -> List.length h = List.length items.
Proof.
  induction h as [|e h IH]; intros [|p items] from Hl; cbn [laid_out] in Hl;
    try contradiction; [reflexivity|].
  cbn [List.length]. f_equal. apply (IH items (end_ e)). tauto.
Qed.

(** The loop of [GetByID] stops at the first entry with the wanted id. *)
Lemma GetByID_loop_first (h : list indexItem) (d : list byte) (id' : string) :
  forall (i : nat) (e : indexItem),
    nth_error h i = Some e ->
    id e = id' ->
    (forall j e', (j < i)%nat -> nth_error h j = Some e' -> id e' <> id') ->
    GetByID_loop h d id' = (x <- slice d (start e) (end_ e) ;; Ret (x, true)).
Proof.
  induction h as [|e0 h IH]; intros i e He Hid Hfirst; [destruct i; discriminate|].
  destruct i as [|i]; cbn [GetByID_loop].
  - injection He as <-. rewrite Hid, String.eqb_refl. reflexivity.
  - assert (Hne : id e0 <> id') by (apply (Hfirst 0%nat); [lia | reflexivity]).
    apply String.eqb_neq in Hne. rewrite Hne.
    apply (IH i e); [exact He | exact Hid |].
    intros j e' Hj He'. apply (Hfirst (S j)); [lia | exact He'].
Qed.

Lemma GetByID_first_item (items : list (string * list byte))
  (b : Blob) (i : nat) (id' : string) (d : list byte) :
  IndexInvariant items b ->
  nth_error items i = Some (id', d) ->
  (forall j p, (j < i)%nat -> nth_error items j = Some p -> fst p <> id') ->
  GetByID b id' = Ret (d, true).
Proof.
  intros Hinv Hi Hfirst.
  pose proof (invariant_laid_out Hinv) as Hl.
  destruct Hinv as (_ & _ & _ & _ & _ & Hd).
  assert (Hlt : (i < List.length (header b))%nat).
  { rewrite (laid_out_length _ _ _ Hl). apply nth_error_Some. congruence. }
  destruct (nth_error (header b) i) as [e|] eqn:He;
    [|apply nth_error_None in He; lia].
  destruct (laid_out_lookup (header b) items [] i Hl eq_refl He Hi) as [Hid Hs].
  cbn [fst snd app] in Hid, Hs. rewrite <- Hd in Hs.
  unfold GetByID. rewrite (GetByID_loop_first (header b) (data b) He Hid).
  - rewrite Hs. reflexivity.
  - intros j e' Hj He' Heq.
    destruct (nth_error items j) as [p|] eqn:Hp.
    + destruct (laid_out_lookup (header b) items [] j Hl eq_refl He' Hp) as [Hid' _].
      apply (Hfirst j p Hj Hp). congruence.
    + apply nth_error_None in Hp.
      assert (i < List.length items)%nat by (apply nth_error_Some; congruence).
      lia.
Qed.

(** C5.  Whatever else the container holds, also further entries with the
    same id, [GetByID] resolves an id to the first entry that has it, the
    one with the lowest index: it answers what [GetByIndex] answers for that
    index.  In a container that satisfies the index invariant this is the
    data of the item at that index, with found = true and without a
    panic. *)
Theorem GetByID_returns_first_match (b : Blob) (id' : string) (i : nat)
  (e : indexItem) :
  nth_error (header b) i = Some e ->
  id e = id' ->
  (forall j e', (j < i)%nat -> nth_error (header b) j = Some e' -> id e' <> id') ->
  GetByID b id' = GetByIndex b (Z.of_nat i) /\
  forall items : list (string * list byte),
    IndexInvariant items b ->
    exists d : list byte,
      nth_error items i = Some (id', d) /\ GetByID b id' = Ret (d, true).
Proof.
  intros He Hid Hfirst.
  assert (Hlt : (i < List.length (header b))%nat)
    by (apply nth_error_Some; congruence).
  split.
  - unfold GetByID, GetByIndex.
    rewrite (GetByID_loop_first (header b) (data b) He Hid Hfirst).
    replace ((Z.of_nat i <? 0) || (Z.of_nat i >=? len (header b))) with false.
    2:{ symmetry. apply orb_false_iff. split; [apply Z.ltb_ge; lia|].
        unfold len. destruct (Z.geb_spec (Z.of_nat i) (Z.of_nat (List.length (header b))));
          [lia | reflexivity]. }
    now rewrite Nat2Z.id, He.
  - intros items Hinv.
    pose proof (invariant_laid_out Hinv) as Hl.
    destruct (nth_error items i) as [[id0 d]|] eqn:Hi.
    2:{ apply nth_error_None in Hi.
        rewrite (laid_out_length _ _ _ Hl) in Hlt. lia. }
    destruct (laid_out_lookup (header b) items [] i Hl eq_refl He Hi) as [Hid0 _].
    cbn [fst] in Hid0.
    assert (Hi' : nth_error items i = Some (id', d)) by congruence.
    exists d. split; [congruence|].
    apply (GetByID_first_item Hinv Hi').
    intros j p Hj Hp Heq.
    destruct (nth_error (header b) j) as [e'|] eqn:He'.
    + destruct (laid_out_lookup (header b) items [] j Hl eq_refl He' Hp) as [Hid' _].
      apply (Hfirst j e' Hj He'). congruence.
    + apply nth_error_None in He'. lia.
Qed.

Lemma example_blob_invariant : IndexInvariant example_items example_blob.
Proof.
  apply laid_out_invariant; [|reflexivity].
  cbn. repeat split.
Qed.

Lemma GetByID_returns_first_match_witness :
  GetByID example_blob "a" = GetByIndex example_blob (Z.of_nat 1) /\
  exists d : list byte,
    nth_error example_items 1 = Some ("a"%string, d) /\
    GetByID example_blob "a" = Ret (d, true).
Proof.
  destruct (@GetByID_returns_first_match example_blob "a" 1
              {| id := "a"; start := 1; end_ := 3 |}) as [Hidx Hdata].
  - reflexivity.
  - reflexivity.
  - intros j e' Hj He'. destruct j as [|j]; [|lia].
    injection He' as <-. cbn. discriminate.
  - split; [exact Hidx|]. apply Hdata. exact example_blob_invariant.
Defined.

(** C7.  An index outside 0 <= i < ItemCount() gives nil data with
    found = false from [GetByIndex] and the empty string from
    [GetIDAtIndex], for every container whatever its fields; neither call
    panics.  An index inside the range gives the id of the entry at this
    index and the part of the buffer between its bounds; in a container that
    satisfies the index invariant these are the id and the data of the item
    at this index, with found = true and without a panic. *)
Theorem lookups_by_index (b : Blob) (i : Z) :
  (i < 0 \/ ItemCount b <= i ->
   GetByIndex b i = Ret ([], false) /\ GetIDAtIndex b i = EmptyString) /\
  (0 <= i < ItemCount b ->
   (exists e, nth_error (header b) (Z.to_nat i) = Some e /\
              GetIDAtIndex b i = id e /\
              GetByIndex b i = (x <- slice (data b) (start e) (end_ e) ;;
                                Ret (x, true))) /\
   forall items, IndexInvariant items b ->
     exists p, nth_error items (Z.to_nat i) = Some p /\
               GetByIndex b i = Ret (snd p, true) /\
               GetIDAtIndex b i = fst p).
Proof.
  unfold ItemCount, GetByIndex, GetIDAtIndex. split.
  - intros Hout.
    replace ((i <? 0) || (i >=? len (header b))) with true; [now split|].
    symmetry. apply orb_true_iff. rewrite Z.ltb_lt, Z.geb_le. lia.
  - intros Hin.
    replace ((i <? 0) || (i >=? len (header b))) with false.
    2:{ symmetry. apply orb_false_iff. split.
        - apply Z.ltb_ge. lia.
        - destruct (Z.geb_spec i (len (header b))); [lia | reflexivity]. }
    assert (Hlt : (Z.to_nat i < List.length (header b))%nat)
      by (unfold len in Hin; lia).
    destruct (nth_error (header b) (Z.to_nat i)) as [e|] eqn:He;
      [|apply nth_error_None in He; lia].
    split; [exists e; repeat split|].
    intros items Hinv.
    pose proof (invariant_laid_out Hinv) as Hl.
    destruct Hinv as (_ & _ & _ & _ & _ & Hd).
    destruct (nth_error items (Z.to_nat i)) as [p|] eqn:Hp.
    2:{ apply nth_error_None in Hp.
        rewrite (laid_out_length _ _ _ Hl) in Hlt. lia. }
    destruct (laid_out_lookup (header b) items [] (Z.to_nat i) Hl eq_refl He Hp)
      as [Hid Hs].
    cbn [app] in Hs. rewrite <- Hd in Hs.
    exists p. rewrite Hs. repeat split. exact Hid.
Qed.

Lemma lookups_by_index_witness :
  (GetByIndex example_blob 3 = Ret ([], false) /\
   GetIDAtIndex example_blob 3 = EmptyString) /\
  (GetByIndex example_blob (-1) = Ret ([], false) /\
   GetIDAtIndex example_blob (-1) = EmptyString) /\
  exists p, nth_error example_items (Z.to_nat 2) = Some p /\
            GetByIndex example_blob 2 = Ret (snd p, true) /\
            GetIDAtIndex example_blob 2 = fst p.
Proof.
  split; [|split].
  - apply (proj1 (lookups_by_index example_blob 3)). right. vm_compute. discriminate.
  - apply (proj1 (lookups_by_index example_blob (-1))). left. lia.
  - apply (proj2 (lookups_by_index example_blob 2)).
    + split; vm_compute; congruence.
    + exact example_blob_invariant.
Defined.

(** ** The invariant after [Append] *)

Lemma uint64_small (z : Z) : 0 <= z <= MaxInt -> uint64 z = z.
Proof. intros Hz. unfold uint64. apply Z.mod_small. unfold MaxInt in Hz. lia. Qed.

Lemma uint64_range (z : Z) : 0 <= uint64 z < 2 ^ 64.
Proof. unfold uint64. apply Z.mod_pos_bound. lia. Qed.

Lemma uint64_add_l (a c : Z) : uint64 (uint64 a + c) = uint64 (a + c).
Proof. unfold uint64. apply Zplus_mod_idemp_l. Qed.

(** The index after a sequence of [Append] calls is the one the dissecting
    loop would build from the items' header entries. *)
Lemma AppendAll_decode (items : list (string * list byte)) :
  forall b0 b : Blob,
    AppendAll b0 items = Ret b ->
    header b = header b0 ++
               decode_entries (uint64 (len (data b0))) (map item_entry items) /\
    data b = data b0 ++ concat (map snd items) /\
    (len (data b0) <= MaxInt -> len (data b) <= MaxInt).
Proof.
  induction items as [|[id' d'] items IH]; intros b0 b HA.
  - injection HA as <-. cbn. now rewrite !app_nil_r.
  - cbn [AppendAll] in HA. unfold Append in HA.
    destruct (Z.leb_spec (len (data b0) + len d') MaxInt) as [Hle|Hgt];
      [|discriminate].
    cbn [bind] in HA. apply IH in HA. cbn [header data] in HA.
    destruct HA as (Hh & Hd & Hmax).
    rewrite len_app in Hh, Hmax.
    split; [|split].
    + rewrite Hh, <- app_assoc. f_equal.
      cbn [map decode_entries item_entry fst snd app].
      rewrite string_of_list_byte_of_string, !uint64_add_l. reflexivity.
    + rewrite Hd, <- app_assoc. reflexivity.
    + intros _. apply Hmax. exact Hle.
Qed.

Lemma laid_out_decode (items : list (string * list byte)) :
  forall from : Z,
    0 <= from ->
    from + len (concat (map snd items)) <= MaxInt ->
    laid_out from (decode_entries from (map item_entry items)) items.
Proof.
  induction items as [|[id' d'] items IH]; intros from Hfrom Hmax; [exact I|].
  cbn [map concat snd] in Hmax. rewrite len_app in Hmax.
  pose proof (len_nonneg d'). pose proof (len_nonneg (concat (map snd items))).
  cbn [map decode_entries item_entry laid_out fst snd id start end_].
  rewrite string_of_list_byte_of_string, uint64_small by lia.
  repeat split. apply IH; lia.
Qed.

Lemma AppendAll_invariant (items : list (string * list byte)) (b : Blob) :
  AppendAll New items = Ret b -> IndexInvariant items b.
Proof.
  intros HA. apply AppendAll_decode in HA. cbn [New header data app] in HA.
  destruct HA as (Hh & Hd & Hmax).
  specialize (Hmax ltac:(vm_compute; discriminate)).
  apply laid_out_invariant; [|exact Hd].
  rewrite Hh. change (uint64 (len (@nil byte))) with 0.
  apply laid_out_decode; [lia|]. rewrite <- Hd. lia.
Qed.

(** ** The invariant after [Read], for every reader *)

Section AnyReader.

Context {R : Type} {HR : io.Reader R} {HOk : io.ReaderOk R}.

Lemma len_stored (buf got : list byte) (n : Z) :
  0 <= n -> n + len got <= len buf -> len (io.stored buf n got) = len buf.
Proof.
  intros Hn Hle. unfold io.stored, len in *.
  rewrite !length_app, length_firstn, length_skipn. lia.
Qed.

(** The loop of [ReadAtLeast] fills the buffer it was given: its length
    stays what it was. *)
Lemma ReadAtLeast_loop_len (fuel : nat) :
  forall (r : R) (buf : list byte) (min n : Z) (err : option error)
         (r' : R) (buf' : list byte) (n' : Z) (err' : option error),
    0 <= n <= len buf ->
    io.ReadAtLeast_loop fuel r buf min n err = Ret (r', (buf', (n', err'))) ->
    len buf' = len buf.
Proof.
  induction fuel as [|fuel IH]; intros r buf min n err r' buf' n' err' Hn HL;
    cbn [io.ReadAtLeast_loop] in HL;
    destruct ((n <? min) && is_nil err); try discriminate;
    try (injection HL as <- <- <- <-; reflexivity).
  pose proof (@io.Read_le R HR HOk r (len buf - n) ltac:(lia)) as Hgot.
  destruct (io.Read r (len buf - n)) as [r1 [got err1]]. cbn [fst snd] in Hgot.
  pose proof (len_nonneg got).
  apply IH in HL; [|rewrite len_stored; lia].
  rewrite HL. apply len_stored; lia.
Qed.

Lemma ReadFull_len (fuel : nat) (r r' : R) (buf buf' : list byte) (n : Z)
  (err : option error) :
  io.ReadFull fuel r buf = Ret (r', (buf', (n, err))) -> len buf' = len buf.
Proof.
  unfold io.ReadFull, io.ReadAtLeast. rewrite Z.ltb_irrefl.
  destruct (io.ReadAtLeast_loop fuel r buf (len buf) 0 None)
    as [[r1 [buf1 [n1 err1]]]| |] eqn:HL; cbn [bind]; try discriminate.
  intros [= <- <- <- <-].
  apply ReadAtLeast_loop_len in HL; [exact HL | pose proof (len_nonneg buf); lia].
Qed.

End AnyReader.

Lemma chained_snoc (h : list indexItem) :
  forall (a : Z) (e : indexItem),
    chained a h (start e) -> chained a (h ++ [e]) (end_ e).
Proof.
  induction h as [|e0 h IH]; intros a e Hc; cbn [chained app] in *.
  - now split.
  - destruct Hc as [Hs Hc]. split; [assumption | now apply IH].
Qed.

(** The dissecting loop keeps the entries chained: each new entry starts at
    the running offset and the running offset moves to its end. *)
Lemma dissect_chained (fuel0 fuel : nat) :
  forall (hr : bytes.Buffer) (hdr hdr' : list indexItem) (ov ov' a : Z),
    dissect fuel0 fuel hr hdr ov = Ret (inl (hdr', ov')) ->
    chained a hdr ov -> 0 <= ov ->
    chained a hdr' ov' /\ 0 <= ov'.
Proof.
  induction fuel as [|fuel IH]; intros hr hdr hdr' ov ov' a HD Hc Hov;
    cbn [dissect] in HD; destruct (bytes.Len hr >? 0);
    try discriminate; try (injection HD as <- <-; now split).
  destruct (binary.Read fuel0 hr 2) as [[hr1 [idLength|err]]| |];
    cbn [bind] in HD; try discriminate.
  destruct (bytes.Next hr1 idLength) as [hr2 next].
  destruct (negb (strlen (string_of_list_byte next) =? idLength));
    [discriminate|].
  destruct (binary.Read fuel0 hr2 8) as [[hr3 [dataLength|err]]| |];
    cbn [bind] in HD; try discriminate.
  apply (IH _ _ _ _ _ a) in HD; [exact HD | | apply uint64_range].
  apply (chained_snoc hdr a
           {| id := string_of_list_byte next; start := ov;
              end_ := uint64 (ov + dataLength) |}).
  exact Hc.
Qed.

(** Every container that [Read] returns has its entries chained from 0 to
    the length of its buffer. *)
Lemma Read_chained (R : Type) `{io.ReaderOk R} (fuel : nat) (r r' : R) (b : Blob) :
  Read fuel r = Ret (r', (Some b, None)) ->
  chained 0 (header b) (len (data b)).
Proof.
  unfold Read.
  destruct (binary.Read fuel r 4) as [[r1 [headerLength|err]]| |];
    cbn [bind]; try discriminate.
  destruct (io.Read r1 (len (make headerLength))) as [r2 [got [err|]]];
    [discriminate|].
  destruct (dissect fuel fuel (bytes.NewBuffer (io.stored (make headerLength) 0 got))
              [] 0) as [[[hdr ov]|err]| |] eqn:HD; cbn [bind]; try discriminate.
  apply dissect_chained with (a := 0) in HD; [|reflexivity|lia].
  destruct HD as [Hc Hov].
  destruct (Z.gtb_spec ov 0) as [Hpos|Hzero].
  - destruct (io.ReadFull fuel r2 (make ov)) as [[r3 [data' [n [err|]]]]| |] eqn:HF;
      cbn [bind]; try discriminate.
    intros [= _ <-]. cbn [header data].
    apply ReadFull_len in HF. rewrite HF, len_make by lia. exact Hc.
  - intros [= _ <-]. cbn [header data]. replace (len (@nil byte)) with ov by (cbn; lia).
    exact Hc.
Qed.

Lemma chained_le (h : list indexItem) :
  forall a c : Z,
    chained a h c -> Forall (fun e => start e <= end_ e) h -> a <= c.
Proof.
  induction h as [|e h IH]; intros a c Hc Hmono; cbn [chained] in Hc; [lia|].
  destruct Hc as [Hs Hc]. inversion Hmono as [|? ? He Hmono']; subst.
  apply IH in Hc; [lia | assumption].
Qed.

(** Chained entries that never end before they start cut the buffer into
    one piece per entry. *)
Lemma chained_items (h : list indexItem) :
  forall (from : Z) (d : list byte),
    chained from h (from + len d) ->
    Forall (fun e => start e <= end_ e) h ->
    exists items : list (string * list byte),
      laid_out from h items /\ d = concat (map snd items).
Proof.
  induction h as [|e h IH]; intros from d Hc Hmono; cbn [chained] in Hc.
  - exists []. split; [exact I|]. cbn. apply len_zero_nil. lia.
  - destruct Hc as [Hs Hc]. inversion Hmono as [|? ? He Hmono']; subst.
    pose proof (@chained_le h _ _ Hc Hmono') as Hle.
    set (k := Z.to_nat (end_ e - start e)).
    assert (Hk : len (firstn k d) = end_ e - start e)
      by (unfold len in *; rewrite length_firstn; lia).
    assert (Hr : len (skipn k d) = len d - (end_ e - start e))
      by (unfold len in *; rewrite length_skipn; lia).
    destruct (IH (end_ e) (skipn k d)) as (items & Hl & Hd);
      [rewrite Hr; replace (end_ e + (len d - (end_ e - start e)))
         with (start e + len d) by lia; exact Hc | exact Hmono' |].
    exists ((id e, firstn k d) :: items). split.
    + cbn [laid_out fst snd]. repeat split; [lia | exact Hl].
    + cbn [map concat snd]. rewrite <- Hd. symmetry. apply firstn_skipn.
Qed.

(** C4, amended.  Every container reached from a new one by [Append] calls
    satisfies the index invariant for the appended items.  Every container
    returned by a successful [Read], from any reader, in which no entry ends
    before it starts (the running offset did not wrap around 2^64)
    satisfies it for the pieces its entries cut out of the buffer. *)
Theorem index_invariant_holds :
  (forall (items : list (string * list byte)) (b : Blob),
      AppendAll New items = Ret b -> IndexInvariant items b) /\
  (forall (R : Type) (HR : io.Reader R) (HOk : io.ReaderOk R)
          (fuel : nat) (r r' : R) (b : Blob),
      Read fuel r = Ret (r', (Some b, None)) ->
      Forall (fun e => start e <= end_ e) (header b) ->
      exists items : list (string * list byte), IndexInvariant items b).
Proof.
  split.
  - exact AppendAll_invariant.
  - intros R HR HOk fuel r r' b HRead Hmono.
    pose proof (@Read_chained R HR HOk fuel r r' b HRead) as Hc.
    destruct (@chained_items (header b) 0 (data b) Hc Hmono) as (items & Hl & Hd).
    exists items. now apply laid_out_invariant.
Qed.

Lemma index_invariant_holds_witness :
  IndexInvariant example_items example_blob /\
  exists items : list (string * list byte), IndexInvariant items example_blob.
Proof.
  split.
  - apply (proj1 index_invariant_holds example_items example_blob). reflexivity.
  - apply (proj2 index_invariant_holds bytes.Buffer Buffer_Reader Buffer_ReaderOk
             3%nat
             (bytes.NewBuffer (fst (snd (Write example_blob (bytes.NewBuffer [])))))
             [] example_blob).
    + vm_compute. reflexivity.
    + repeat constructor; vm_compute; discriminate.
Defined.

(** C4 as stated fails for [Read]: a header that declares 2^64 - 1 and then
    2 data bytes makes the running offset wrap to 1; [Read] takes one data
    byte and returns a container whose first entry spans 2^64 - 1 bytes of a
    one-byte buffer.  No items fit it, and [GetByIndex] panics on it. *)
Lemma Read_wrapped_offsets_counterexample :
  exists b : Blob,
    Read 2 (bytes.NewBuffer
              (bytes_of [20; 0; 0; 0;
                         0; 0; 255; 255; 255; 255; 255; 255; 255; 255;
                         0; 0; 2; 0; 0; 0; 0; 0; 0; 0;
                         7])) = Ret ([], (Some b, None)) /\
    header b = [ {| id := ""; start := 0; end_ := 18446744073709551615 |};
                 {| id := ""; start := 18446744073709551615; end_ := 1 |} ] /\
    data b = bytes_of [7] /\
    (~ exists items : list (string * list byte), IndexInvariant items b) /\
    GetByIndex b 0 = Panic "slice bounds out of range".
Proof.
  exists {| header :=
              [ {| id := ""; start := 0; end_ := 18446744073709551615 |};
                {| id := ""; start := 18446744073709551615; end_ := 1 |} ];
            data := bytes_of [7] |}.
  split; [vm_compute; reflexivity|].
  split; [reflexivity|]. split; [reflexivity|]. split; [|reflexivity].
  intros (items & Hid & _ & _ & Hlen & _ & Hd). cbn [header data] in *.
  destruct items as [|p0 [|p1 [|p2 items]]]; try discriminate.
  specialize (Hlen 0%nat _ p0 eq_refl eq_refl). cbn [start end_] in Hlen.
  apply (f_equal (@len byte)) in Hd. cbn [map concat] in Hd.
  rewrite !len_app in Hd. change (len (bytes_of [7])) with 1 in Hd.
  pose proof (len_nonneg (snd p1)). pose proof (len_nonneg (@nil byte)). lia.
Qed.

(** ** Writing and reading back *)

Lemma declared_total_items (items : list (string * list byte)) :
  declared_total (map item_entry items) = len (concat (map snd items)).
Proof.
  induction items as [|p items IH]; [reflexivity|].
  cbn [map concat]. rewrite len_app, <- IH. reflexivity.
Qed.

Lemma items_entry_ok (items : list (string * list byte)) :
  Forall (fun p => strlen (fst p) <= 65535) items ->
  len (concat (map snd items)) <= MaxInt ->
  Forall entry_ok (map item_entry items).
Proof.
  induction 1 as [|p items Hp Hids IH]; intros Hmax; [constructor|].
  cbn [map concat] in *. rewrite len_app in Hmax.
  pose proof (len_nonneg (snd p)). pose proof (len_nonneg (concat (map snd items))).
  constructor; [|apply IH; lia].
  unfold entry_ok, item_entry. cbn [fst snd].
  rewrite len_list_byte_of_string. unfold MaxInt in Hmax. lia.
Qed.

(** What [Write] emits for a container built by [Append] calls, with ids
    that fit the 2-byte length field and a header that fits the 4-byte one,
    is read back by [Read] as the same container. *)
Lemma Write_then_Read (items : list (string * list byte)) (b : Blob) (fuel : nat) :
  AppendAll New items = Ret b ->
  Forall (fun p => strlen (fst p) <= 65535) items ->
  header_size (header b) < 2 ^ 32 ->
  (1 + List.length items <= fuel)%nat ->
  exists out : list byte,
    Write b (bytes.NewBuffer []) = (b, (out, None)) /\
    Read fuel (bytes.NewBuffer out) = Ret ([], (Some b, None)).
Proof.
  intros HA Hids Hsize Hfuel.
  apply AppendAll_decode in HA. cbn [New header data app] in HA.
  destruct HA as (Hh & Hd & Hmax).
  specialize (Hmax ltac:(vm_compute; discriminate)).
  change (uint64 (len (@nil byte))) with 0 in Hh.
  set (ens := map item_entry items) in *.
  assert (Hok : Forall entry_ok ens)
    by (apply items_entry_ok; [assumption | now rewrite <- Hd]).
  assert (Henc : encode_header (header b) = flat_map entry_bytes ens)
    by (rewrite Hh; now apply encode_decode_entries).
  assert (Hlen : header_size (header b) = len (flat_map entry_bytes ens))
    by (now rewrite <- len_encode_header, Henc).
  rewrite Write_Buffer. cbn [bytes.NewBuffer app]. eexists. split; [reflexivity|].
  rewrite Henc, Hlen.
  unfold uint32. rewrite Z.mod_small
    by (pose proof (len_nonneg (flat_map entry_bytes ens)); lia).
  rewrite Read_archive.
  - rewrite <- Hh. destruct b. reflexivity.
  - lia.
  - unfold ens. rewrite length_map. lia.
  - assumption.
  - lia.
  - rewrite final_offset_total by lia. unfold ens.
    rewrite declared_total_items, <- Hd, Z.add_0_l.
    symmetry. apply uint64_small. pose proof (len_nonneg (data b)). lia.
Qed.





(** ** A header cut short *)

(** C3 at the failing input.  The source holds a header length of 12 and
    then only 2 of the 12 header bytes.  The single [r.Read] returns the 2
    bytes with a nil error, the other 10 bytes of the header stay zero, and
    [Read] returns a container with one entry and a nil error instead of a
    read error. *)
Theorem Read_accepts_header_cut_short :
  Read 2 (bytes.NewBuffer (bytes_of [12; 0; 0; 0; 2; 0])) =
  Ret ([], (Some {| header :=
                      [ {| id := string_of_list_byte (bytes_of [0; 0]);
                           start := 0; end_ := 0 |} ];
                    data := [] |}, None)).
Proof. vm_compute. reflexivity. Qed.

(** ** The first revision of [Read] agrees with the later ones *)

Lemma ReadAtLeast_loop_Reader (fuel : nat) :
  forall (l : list byte) (buf : list byte) (min n : Z) (err : option error),
    0 <= n -> min <= len buf ->
    io.ReadAtLeast_loop fuel (bytes.NewReader l) buf min n err =
    as_Reader (io.ReadAtLeast_loop fuel (l : bytes.Buffer) buf min n err).
Proof.
  induction fuel as [|fuel IH]; intros l buf min n err Hn Hmin;
    cbn [io.ReadAtLeast_loop];
    destruct (Z.ltb_spec n min) as [Hlt|Hge]; cbn [andb];
    try reflexivity; destruct (is_nil err); try reflexivity.
  pose proof (@io.Read_le bytes.Buffer _ _ l (len buf - n) ltac:(lia)) as Hgot.
  cbn [io.Read Buffer_Reader Reader_Reader] in *.
  unfold bytes.Reader_Read, bytes.Read in *. cbn [bytes.unread bytes.NewReader].
  destruct l as [|x l].
  - replace (len buf - n =? 0) with false by (symmetry; apply Z.eqb_neq; lia).
    apply IH; [cbn; lia | rewrite len_stored; cbn; lia].
  - cbn [fst snd] in Hgot.
    pose proof (len_nonneg (firstn (Z.to_nat (Z.min (len buf - n) (len (x :: l))))
                                   (x :: l))).
    apply IH; [lia | rewrite len_stored; lia].
Qed.

Lemma ReadFull_Reader (fuel : nat) (l buf : list byte) :
  io.ReadFull fuel (bytes.NewReader l) buf =
  as_Reader (io.ReadFull fuel (l : bytes.Buffer) buf).
Proof.
  unfold io.ReadFull, io.ReadAtLeast. rewrite Z.ltb_irrefl.
  rewrite ReadAtLeast_loop_Reader by (pose proof (len_nonneg buf); lia).
  destruct (io.ReadAtLeast_loop fuel (l : bytes.Buffer) buf (len buf) 0 None)
    as [[l' [buf' [n err]]]| |]; reflexivity.
Qed.

Lemma binary_Read_Reader (fuel size : nat) (l : list byte) :
  binary.Read fuel (bytes.NewReader l) size =
  as_Reader (binary.Read fuel (l : bytes.Buffer) size).
Proof.
  unfold binary.Read. rewrite ReadFull_Reader.
  destruct (io.ReadFull fuel (l : bytes.Buffer) (make (Z.of_nat size)))
    as [[l' [buf' [n [err|]]]]| |]; reflexivity.
Qed.

(** [io.ReadFull] from a [bytes.Buffer] that holds fewer bytes than wanted:
    a second read meets the end of the buffer. *)
Lemma ReadFull_Buffer_short (fuel : nat) (l buf : list byte) :
  (2 <= fuel)%nat ->
  (List.length l < List.length buf)%nat ->
  io.ReadFull fuel (l : bytes.Buffer) buf =
  Ret ([], (l ++ skipn (List.length l) buf, (len l, Some (short_read_error l)))).
Proof.
  intros Hfuel Hshort. unfold io.ReadFull, io.ReadAtLeast.
  rewrite Z.ltb_irrefl.
  destruct fuel as [|[|fuel]]; try lia.
  assert (Hpos : 0 < len buf) by (unfold len; lia).
  cbn [io.ReadAtLeast_loop].
  replace (0 <? len buf) with true by (symmetry; apply Z.ltb_lt; lia).
  cbn [andb is_nil io.Read Buffer_Reader]. unfold bytes.Read.
  destruct l as [|x l].
  - replace (len buf - 0 =? 0) with false by (symmetry; apply Z.eqb_neq; lia).
    replace (0 + len (@nil byte) <? len buf) with true
      by (symmetry; apply Z.ltb_lt; cbn; lia).
    cbn [andb is_nil bind].
    replace (0 + len (@nil byte) >=? len buf) with false
      by (symmetry; cbn; destruct (Z.geb_spec 0 (len buf)); [lia | reflexivity]).
    unfold io.stored. cbn. reflexivity.
  - set (l0 := x :: l) in *.
    replace (Z.to_nat (Z.min (len buf - 0) (len l0))) with (List.length l0)
      by (unfold len; lia).
    rewrite firstn_all, skipn_all.
    assert (Hst : io.stored buf 0 l0 = l0 ++ skipn (List.length l0) buf)
      by reflexivity.
    rewrite Hst.
    assert (Hlt : 0 + len l0 < len (l0 ++ skipn (List.length l0) buf)).
    { rewrite len_app. unfold len. rewrite length_skipn. lia. }
    assert (Hlen' : len (l0 ++ skipn (List.length l0) buf) = len buf).
    { rewrite len_app. unfold len. rewrite length_skipn. lia. }
    replace (0 + len l0 <? len buf) with true
      by (symmetry; apply Z.ltb_lt; lia).
    cbn [andb is_nil].
    replace (len (l0 ++ skipn (List.length l0) buf) - (0 + len l0) =? 0) with false
      by (symmetry; apply Z.eqb_neq; lia).
    assert (Hst2 : io.stored (l0 ++ skipn (List.length l0) buf) (0 + len l0) []
                   = l0 ++ skipn (List.length l0) buf).
    { unfold io.stored. cbn [app List.length]. rewrite Nat.add_0_r.
      apply firstn_skipn. }
    rewrite Hst2. rewrite Z.add_0_r.
    assert (Hexit : io.ReadAtLeast_loop fuel ([] : bytes.Buffer)
                      (l0 ++ skipn (List.length l0) buf) (len buf)
                      (0 + len l0) (Some EOF) =
                    Ret ([], (l0 ++ skipn (List.length l0) buf,
                              (0 + len l0, Some EOF)))).
    { destruct fuel; cbn [io.ReadAtLeast_loop is_nil]; now rewrite andb_false_r. }
    rewrite Hexit. cbn [bind].
    replace (0 + len l0 >=? len buf) with false
      by (symmetry; destruct (Z.geb_spec (0 + len l0) (len buf)); [lia | reflexivity]).
    replace (0 + len l0 >? 0) with true
      by (symmetry; apply Z.gtb_lt; unfold l0; rewrite len_cons;
          pose proof (len_nonneg l); lia).
    cbn [andb is_EOF]. rewrite Z.add_0_l. reflexivity.
Qed.

Lemma length_make_Z (n : Z) : List.length (make n) = Z.to_nat n.
Proof. unfold make. apply repeat_length. Qed.

(** [io.ReadFull] and [binary.Read] from a [bytes.Buffer], in full. *)
Lemma ReadFull_Buffer_total (fuel : nat) (l buf : list byte) :
  (2 <= fuel)%nat ->
  io.ReadFull fuel (l : bytes.Buffer) buf =
  if (List.length buf <=? List.length l)%nat
  then Ret (skipn (List.length buf) l, (firstn (List.length buf) l, (len buf, None)))
  else Ret ([], (l ++ skipn (List.length l) buf, (len l, Some (short_read_error l)))).
Proof.
  intros Hfuel. destruct (Nat.leb_spec (List.length buf) (List.length l)) as [Hle|Hgt].
  - rewrite <- (firstn_skipn (List.length buf) l) at 1.
    rewrite ReadFull_Buffer; [|lia|rewrite length_firstn; lia].
    unfold len. rewrite length_firstn. repeat f_equal. lia.
  - now apply ReadFull_Buffer_short.
Qed.

Lemma binary_Read_Buffer_total (fuel size : nat) (l : list byte) :
  (2 <= fuel)%nat ->
  binary.Read fuel (l : bytes.Buffer) size =
  if (size <=? List.length l)%nat
  then Ret (skipn size l, inl (le_combine (firstn size l)))
  else Ret ([], inr (short_read_error l)).
Proof.
  intros Hfuel. unfold binary.Read.
  rewrite ReadFull_Buffer_total by assumption. rewrite length_make.
  destruct (size <=? List.length l)%nat; reflexivity.
Qed.

(** The two dissecting loops build the same index from the same header
    bytes, and fail on the same header bytes. *)
Lemma dissect_v1_agrees (fuel0 : nat) :
  (2 <= fuel0)%nat ->
  forall (fuel : nat) (l : list byte) (hdr : list indexItem) (ov : Z),
    match dissect fuel0 fuel (bytes.NewBuffer l) hdr ov,
          dissect_v1 fuel0 fuel (bytes.NewReader l) hdr ov with
    | Ret (inl x), Ret (inl y) => x = y
    | Ret (inr _), Ret (inr _) => True
    | OutOfFuel, OutOfFuel => True
    | _, _ => False
    end.
Proof.
  intros Hfuel0. induction fuel as [|fuel IH]; intros l hdr ov;
    cbn [dissect dissect_v1];
    unfold bytes.Len, bytes.Reader_Len, bytes.NewBuffer, bytes.NewReader;
    cbn [bytes.unread]; destruct (len l >? 0); trivial.
  change {| bytes.unread := l |} with (bytes.NewReader l).
  rewrite binary_Read_Reader, binary_Read_Buffer_total by assumption.
  destruct (2 <=? List.length l)%nat; cbn [as_Reader bind]; [|exact I].
  set (idLength := le_combine (firstn 2 l)). set (rest := skipn 2 l).
  assert (HidLength : 0 <= idLength) by apply le_combine_bound.
  rewrite ReadFull_Reader, ReadFull_Buffer_total by assumption.
  rewrite !length_make_Z. unfold bytes.Next, bytes.Len.
  destruct (Nat.leb_spec (Z.to_nat idLength) (List.length rest)) as [Hle|Hgt].
  - replace (idLength >? len rest) with false
      by (symmetry; unfold len; destruct (Z.gtb_spec idLength (Z.of_nat (List.length rest)));
          [lia | reflexivity]).
    rewrite strlen_string_of_list_byte.
    replace (len (firstn (Z.to_nat idLength) rest)) with idLength
      by (unfold len; rewrite length_firstn; lia).
    rewrite Z.eqb_refl. cbn [negb as_Reader bind].
    rewrite binary_Read_Reader, binary_Read_Buffer_total by assumption.
    destruct (8 <=? List.length (skipn (Z.to_nat idLength) rest))%nat;
      cbn [as_Reader bind]; [|exact I].
    apply IH.
  - replace (idLength >? len rest) with true
      by (symmetry; apply Z.gtb_lt; unfold len; lia).
    unfold len at 1. rewrite Nat2Z.id, firstn_all, strlen_string_of_list_byte.
    replace (len rest =? idLength) with false
      by (symmetry; apply Z.eqb_neq; unfold len; lia).
    cbn [negb as_Reader bind]. exact I.
Qed.

(** On every reader and with fuel for two loop iterations or more, the
    first revision of [Read] and the later ones return the same blob and
    leave the reader in the same state, or fail together. *)
Lemma Read_v1_agrees (R : Type) `{io.Reader R} (fuel : nat) (r : R) :
  (2 <= fuel)%nat -> agree (Read fuel r) (Read_v1 fuel r).
Proof.
  intros Hfuel. unfold Read, Read_v1, agree.
  destruct (binary.Read fuel r 4) as [[r1 [headerLength|err]]| |];
    cbn [bind]; trivial.
  destruct (io.Read r1 (len (make headerLength))) as [r2 [got [err|]]]; trivial.
  pose proof (@dissect_v1_agrees fuel Hfuel fuel
                (io.stored (make headerLength) 0 got) [] 0) as HD.
  destruct (dissect fuel fuel (bytes.NewBuffer (io.stored (make headerLength) 0 got))
              [] 0) as [[[hdr ov]|err]| |];
    destruct (dissect_v1 fuel fuel
                (bytes.NewReader (io.stored (make headerLength) 0 got)) [] 0)
      as [[[hdr1 ov1]|err1]| |];
    try contradiction; cbn [bind]; trivial.
  injection HD as <- <-.
  destruct (ov >? 0); [|now split].
  destruct (io.ReadFull fuel r2 (make ov)) as [[r3 [data' [n [err|]]]]| |];
    cbn [bind]; trivial. now split.
Qed.

(** ** [Read] from a [bytes.Buffer] returns *)

Lemma Next_length (b b' : bytes.Buffer) (n : Z) (x : list byte) :
  bytes.Next b n = (b', x) -> (List.length b' <= List.length b)%nat.
Proof.
  unfold bytes.Next. intros [= <- _]. rewrite length_skipn. lia.
Qed.

Lemma dissect_Buffer_returns (fuel0 : nat) :
  (2 <= fuel0)%nat ->
  forall (fuel : nat) (l : list byte) (hdr : list indexItem) (ov : Z),
    (List.length l <= fuel)%nat ->
    exists res, dissect fuel0 fuel (bytes.NewBuffer l) hdr ov = Ret res.
Proof.
  intros Hfuel0. induction fuel as [|fuel IH]; intros l hdr ov Hl;
    cbn [dissect]; unfold bytes.Len, bytes.NewBuffer.
  - destruct l; [|cbn in Hl; lia]. cbn. eauto.
  - destruct (len l >? 0); [|eauto].
    rewrite binary_Read_Buffer_total by assumption.
    destruct (Nat.leb_spec 2 (List.length l)) as [H2|H2]; cbn [bind]; [|eauto].
    destruct (bytes.Next (skipn 2 l) (le_combine (firstn 2 l))) as [hr2 next] eqn:HN.
    destruct (negb (strlen (string_of_list_byte next) =? le_combine (firstn 2 l)));
      [eauto|].
    rewrite binary_Read_Buffer_total by assumption.
    destruct (8 <=? List.length hr2)%nat; cbn [bind]; [|eauto].
    apply IH. change (List.length (skipn 8 hr2) <= fuel)%nat.
    apply Next_length in HN.
    pose proof (length_skipn 2 l). pose proof (length_skipn 8 hr2). lia.
Qed.

(** With fuel for two loop iterations and for one per byte of the declared
    header length, the model of [Read] from a [bytes.Buffer] returns a blob
    or an error.  (The model does not bound what [make] can allocate.) *)
Lemma Read_Buffer_returns (fuel : nat) (input : list byte) :
  (2 <= fuel)%nat ->
  (Z.to_nat (le_combine (firstn 4 input)) <= fuel)%nat ->
  exists res, Read fuel (bytes.NewBuffer input) = Ret res.
Proof.
  intros Hfuel Hl. unfold Read, bytes.NewBuffer.
  rewrite binary_Read_Buffer_total by assumption.
  destruct (4 <=? List.length input)%nat; cbn [bind]; [|eauto].
  set (headerLength := le_combine (firstn 4 input)) in *.
  pose proof (@io.Read_le bytes.Buffer _ _ (skipn 4 input)
                (len (make headerLength)) (len_nonneg _)) as Hle.
  destruct (io.Read (skipn 4 input : bytes.Buffer) (len (make headerLength)))
    as [r2 [got [err|]]]; [eauto|].
  cbn [fst snd] in Hle.
  assert (Hgot : (List.length (io.stored (make headerLength) 0 got) <= fuel)%nat).
  { assert (Hlen : len (io.stored (make headerLength) 0 got)
                   = len (make headerLength))
      by (apply len_stored; lia).
    unfold len in Hlen. rewrite length_make_Z in Hlen. lia. }
  destruct (@dissect_Buffer_returns fuel Hfuel fuel
              (io.stored (make headerLength) 0 got) [] 0 Hgot) as [res HD].
  unfold bytes.NewBuffer in HD. rewrite HD. cbn [bind].
  destruct res as [[hdr ov]|err]; [|eauto].
  destruct (ov >? 0); [|eauto].
  rewrite ReadFull_Buffer_total by assumption.
  destruct (List.length (make ov) <=? List.length r2)%nat; cbn [bind]; eauto.
Qed.

(** ** A reader that returns short reads *)

#[export] Instance OneByteReader_ReaderOk : io.ReaderOk iotest.OneByteReader.
Proof.
  constructor. intros [l] k Hk. cbn [io.Read OneByteReader_Reader].
  unfold iotest.Read. destruct (k =? 0) eqn:Hz; [cbn; lia|].
  apply Z.eqb_neq in Hz. cbn [iotest.r].
  pose proof (@io.Read_le bytes.Buffer _ _ l 1 ltac:(lia)) as Hle.
  cbn [io.Read Buffer_Reader] in Hle.
  destruct (bytes.Read l 1) as [b' [got err]]. cbn [fst snd] in *. lia.
Qed.

(** The archive of the ("id", [1,2,3]) scenario, complete, handed out one
    byte per call: [Read] takes the first header byte for the whole header
    and returns a container with an entry that was never written. *)
Lemma Read_one_byte_at_a_time :
  Read 4 (iotest.mkOneByteReader
            (bytes.NewBuffer
               (bytes_of [12; 0; 0; 0; 2; 0; 105; 100;
                          3; 0; 0; 0; 0; 0; 0; 0; 1; 2; 3]))) =
  Ret (iotest.mkOneByteReader
         (bytes_of [0; 105; 100; 3; 0; 0; 0; 0; 0; 0; 0; 1; 2; 3]),
       (Some {| header :=
                  [ {| id := string_of_list_byte (bytes_of [0; 0]);
                       start := 0; end_ := 0 |} ];
                data := [] |}, None)).
Proof. vm_compute. reflexivity. Qed.

(** ** A writer that fails *)

(** When the writer fails, [Write] reports the phase that failed and the
    cause, and the container is the one of before. *)
Lemma Write_to_closed_writer (b : Blob) :
  Write b mkClosedWriter =
  (b, (mkClosedWriter,
       Some (errors_New "writing blob header length: file already closed"))).
Proof.
  unfold Write. rewrite Write_header_Buffer. reflexivity.
Qed.

(** * Further properties of the package *)

(** ** [Read] from a [bytes.Buffer], phase by phase *)

(** Once the header length and as many header bytes are in the buffer,
    [Read] dissects exactly these header bytes and goes on with what
    follows them. *)
Lemma Read_Buffer_header (fuel : nat) (hdr after : list byte) :
  (1 <= fuel)%nat ->
  len hdr < 2 ^ 32 ->
  Read fuel (bytes.NewBuffer (le_split 4 (len hdr) ++ hdr ++ after)) =
  (res' <- dissect fuel fuel (bytes.NewBuffer hdr) [] 0 ;;
   match res' with
   | inr err => Ret (after, (None, Some err))
   | inl (h, ov) =>
       if ov >? 0 then
         '(r3, (data', (_, err3))) <- io.ReadFull fuel (after : bytes.Buffer) (make ov) ;;
         match err3 with
         | Some err =>
             Ret (r3, (None,
                       Some (errors_New ("reading blob data: " ++ Error err))))
         | None => Ret (r3, (Some {| header := h; data := data' |}, None))
         end
       else Ret (after, (Some {| header := h; data := [] |}, None))
   end).
Proof.
  intros Hfuel Hsize. unfold Read, bytes.NewBuffer.
  pose proof (len_nonneg hdr) as Hhdr.
  rewrite binary_Read_Buffer by (auto using length_le_split).
  cbn [bind]. rewrite le_combine_split_small by (cbn; lia).
  rewrite len_make by lia.
  assert (Hread : io.Read (hdr ++ after : bytes.Buffer) (len hdr)
                  = (after, (hdr, None))).
  { cbn [io.Read Buffer_Reader]. unfold bytes.Read.
    destruct (hdr ++ after) as [|x l] eqn:E.
    - apply app_eq_nil in E. destruct E as [-> ->]. reflexivity.
    - rewrite <- E.
      replace (Z.to_nat (Z.min (len hdr) (len (hdr ++ after))))
        with (List.length hdr)
        by (rewrite len_app; pose proof (len_nonneg after); unfold len in *; lia).
      rewrite firstn_app, Nat.sub_diag, firstn_all, firstn_O, app_nil_r.
      rewrite skipn_app, Nat.sub_diag, skipn_all, skipn_O. reflexivity. }
  rewrite Hread.
  rewrite stored_all by (rewrite length_make_Z; unfold len; now rewrite Nat2Z.id).
  reflexivity.
Qed.




(** X1.  A source that ends before the 4 bytes of the header length makes
    [Read] fail in the header-length phase, with EOF when the source is
    empty and an unexpected EOF when it holds 1 to 3 bytes; no blob is
    returned and the source is drained. *)
Theorem Read_reports_missing_header_length (fuel : nat) (input : list byte) :
  (2 <= fuel)%nat ->
  (List.length input < 4)%nat ->
  Read fuel (bytes.NewBuffer input) =
  Ret ([], (None,
            Some (errors_New ("reading blob header length: "
                              ++ Error (short_read_error input))))).
Proof.
  intros Hfuel Hshort. unfold Read, bytes.NewBuffer.
  rewrite binary_Read_Buffer_total by assumption.
  replace (4 <=? List.length input)%nat with false
    by (symmetry; apply Nat.leb_gt; lia).
  reflexivity.
Qed.

Lemma Read_reports_missing_header_length_witness :
  Read 2 (bytes.NewBuffer (bytes_of [12; 0; 0])) =
  Ret ([], (None,
            Some (errors_New "reading blob header length: unexpected EOF"))).
Proof.
  apply (@Read_reports_missing_header_length 2 (bytes_of [12; 0; 0])); cbn; lia.
Defined.

(** X2.  Whatever the reader, a call of [Read] that returns gives either a
    blob and a nil error or a nil blob and an error, never both and never
    neither. *)
Theorem Read_blob_or_error (R : Type) `{io.Reader R} (fuel : nat) (r r' : R)
  (ob : option Blob) (oerr : option error) :
  Read fuel r = Ret (r', (ob, oerr)) ->
  (exists b, ob = Some b /\ oerr = None) \/
  (exists e, ob = None /\ oerr = Some e).
Proof.
  unfold Read.
  destruct (binary.Read fuel r 4) as [[r1 [headerLength|err]]| |];
    cbn [bind]; try discriminate; [|intros [= _ <- <-]; right; eauto].
  destruct (io.Read r1 (len (make headerLength))) as [r2 [got [err|]]];
    [intros [= _ <- <-]; right; eauto|].
  destruct (dissect fuel fuel (bytes.NewBuffer (io.stored (make headerLength) 0 got))
              [] 0) as [[[hdr ov]|err]| |]; cbn [bind]; try discriminate;
    [|intros [= _ <- <-]; right; eauto].
  destruct (ov >? 0); [|intros [= _ <- <-]; left; eauto].
  destruct (io.ReadFull fuel r2 (make ov)) as [[r3 [data' [n [err|]]]]| |];
    cbn [bind]; try discriminate; intros [= _ <- <-]; [right | left]; eauto.
Qed.

Lemma Read_blob_or_error_witness :
  (exists b, Some New = Some b /\ @None error = None) \/
  (exists e, Some New = None /\ @None error = Some e).
Proof.
  apply (@Read_blob_or_error bytes.Buffer Buffer_Reader 1
           (bytes.NewBuffer (bytes_of [0; 0; 0; 0])) [] (Some New) None).
  reflexivity.
Defined.





Lemma Read_archive_rest (fuel : nat) (ens : list (list byte * Z))
  (d rest : list byte) :
  (1 <= fuel)%nat ->
  (List.length ens <= fuel)%nat ->
  Forall entry_ok ens ->
  len (flat_map entry_bytes ens) < 2 ^ 32 ->
  len d = declared_total ens ->
  declared_total ens < 2 ^ 64 ->
  Read fuel (bytes.NewBuffer
               (le_split 4 (len (flat_map entry_bytes ens)) ++
                flat_map entry_bytes ens ++ d ++ rest)) =
  Ret (rest, (Some {| header := decode_entries 0 ens; data := d |}, None)).
Proof.
  intros Hfuel Hens Hok Hsize Hd Htotal.
  rewrite Read_Buffer_header by (assumption || lia).
  rewrite dissect_entries by (assumption || lia). cbn [bind app].
  rewrite final_offset_total by lia. rewrite Z.add_0_l.
  pose proof (len_nonneg d).
  assert (Hov : uint64 (declared_total ens) = len d)
    by (unfold uint64; rewrite Z.mod_small; lia).
  rewrite Hov.
  destruct (Z.gtb_spec (len d) 0) as [Hpos|Hzero].
  - rewrite ReadFull_Buffer; [reflexivity | assumption |].
    rewrite length_make_Z. unfold len. now rewrite Nat2Z.id.
  - assert (d = []) as -> by (apply len_zero_nil; lia). reflexivity.
Qed.

(** X5.  [Read] takes the 4 bytes of the header length, the header and the
    data the header declares, and nothing more: on an archive followed by
    other bytes it returns the container of the archive and leaves those
    bytes unread in the source. *)
Theorem Read_leaves_the_rest (fuel : nat) (ens : list (list byte * Z))
  (d rest : list byte) :
  (1 <= fuel)%nat ->
  (List.length ens <= fuel)%nat ->
  Forall entry_ok ens ->
  len (flat_map entry_bytes ens) < 2 ^ 32 ->
  len d = declared_total ens ->
  declared_total ens < 2 ^ 64 ->
  Read fuel (bytes.NewBuffer
               (le_split 4 (len (flat_map entry_bytes ens)) ++
                flat_map entry_bytes ens ++ d ++ rest)) =
  Ret (rest, (Some {| header := decode_entries 0 ens; data := d |}, None)).
Proof. apply Read_archive_rest. Qed.

Lemma Read_leaves_the_rest_witness :
  Read 1 (bytes.NewBuffer
            (le_split 4 (len (flat_map entry_bytes [(bytes_of [105; 100], 3)])) ++
             flat_map entry_bytes [(bytes_of [105; 100], 3)] ++
             bytes_of [1; 2; 3] ++ bytes_of [7; 7])) =
  Ret (bytes_of [7; 7],
       (Some {| header := decode_entries 0 [(bytes_of [105; 100], 3)];
                data := bytes_of [1; 2; 3] |}, None)).
Proof.
  apply (@Read_leaves_the_rest 1 [(bytes_of [105; 100], 3)]
           (bytes_of [1; 2; 3]) (bytes_of [7; 7])).
  - lia.
  - cbn. lia.
  - constructor; [|constructor]. split; [|split]; vm_compute; congruence.
  - vm_compute. reflexivity.
  - reflexivity.
  - vm_compute. reflexivity.
Defined.

(** X6.  A source that holds a header length and nothing else.  From a
    [bytes.Buffer], the length 0 reads as the empty container and every
    other length fails in the header phase with EOF.  From a
    [bytes.Reader], which answers EOF at its end also to a read of no
    bytes, every length fails so, the length 0 of the empty archive
    included. *)
Theorem Read_header_length_alone (fuel : nat) (n : Z) :
  (1 <= fuel)%nat ->
  0 <= n < 2 ^ 32 ->
  Read fuel (bytes.NewBuffer (le_split 4 n)) =
  Ret ([], if n =? 0 then (Some New, None)
           else (None, Some (errors_New "reading blob header: EOF"))) /\
  Read fuel (bytes.NewReader (le_split 4 n)) =
  Ret (bytes.NewReader [],
       (None, Some (errors_New "reading blob header: EOF"))).
Proof.
  intros Hfuel Hn.
  assert (HB : binary.Read fuel (le_split 4 n : bytes.Buffer) 4 = Ret ([], inl n)).
  { rewrite <- (app_nil_r (le_split 4 n)).
    rewrite binary_Read_Buffer by (auto using length_le_split).
    now rewrite le_combine_split_small by (cbn; lia). }
  split.
  - unfold Read, bytes.NewBuffer. rewrite HB. cbn [bind].
    rewrite len_make by lia. cbn [io.Read Buffer_Reader bytes.Read].
    destruct (Z.eqb_spec n 0) as [->|Hne]; [|reflexivity].
    destruct fuel; reflexivity.
  - unfold Read. rewrite binary_Read_Reader, HB. cbn [as_Reader bind].
    reflexivity.
Qed.

Lemma Read_header_length_alone_witness :
  Read 1 (bytes.NewBuffer (le_split 4 0)) = Ret ([], (Some New, None)) /\
  Read 1 (bytes.NewReader (le_split 4 0)) =
  Ret (bytes.NewReader [],
       (None, Some (errors_New "reading blob header: EOF"))).
Proof.
  apply (@Read_header_length_alone 1 0); lia.
Defined.

(** X7.  The first revision of [Read], which dissects the header through a
    [bytes.Reader] and [io.ReadFull], and the later revisions, which use a
    [bytes.Buffer] and [Next], agree on every reader: they return the same
    container and leave the reader in the same state, or fail together. *)
Theorem Read_revisions_agree (R : Type) `{io.Reader R} (fuel : nat) (r : R) :
  (2 <= fuel)%nat -> agree (Read fuel r) (Read_v1 fuel r).
Proof. apply Read_v1_agrees. Qed.

Lemma Read_revisions_agree_witness :
  agree (Read 2 (bytes.NewBuffer (bytes_of [12; 0; 0; 0; 2; 0; 105; 100;
                                            3; 0; 0; 0; 0; 0; 0; 0; 1; 2; 3])))
        (Read_v1 2 (bytes.NewBuffer (bytes_of [12; 0; 0; 0; 2; 0; 105; 100;
                                               3; 0; 0; 0; 0; 0; 0; 0; 1; 2; 3]))).
Proof.
  apply (@Read_revisions_agree bytes.Buffer Buffer_Reader 2). lia.
Defined.

(** ** [Append] and the lookups *)

Lemma slice_Ret (s : list byte) (lo hi : Z) (x : list byte) :
  slice s lo hi = Ret x ->
  0 <= lo /\ lo <= hi /\ hi <= len s /\
  x = firstn (Z.to_nat (hi - lo)) (skipn (Z.to_nat lo) s).
Proof.
  unfold slice.
  destruct (Z.leb_spec 0 lo); cbn [andb]; [|discriminate].
  destruct (Z.leb_spec lo hi); cbn [andb]; [|discriminate].
  destruct (Z.leb_spec hi (len s)); [|discriminate].
  intros [= <-]. auto.
Qed.

Lemma slice_in_range (s : list byte) (lo hi : Z) :
  0 <= lo -> lo <= hi -> hi <= len s ->
  slice s lo hi = Ret (firstn (Z.to_nat (hi - lo)) (skipn (Z.to_nat lo) s)).
Proof.
  intros H0 H1 H2. unfold slice.
  replace ((0 <=? lo) && (lo <=? hi) && (hi <=? len s)) with true; [reflexivity|].
  symmetry. rewrite !andb_true_iff, !Z.leb_le. auto.
Qed.


(** The same behind bytes put in front of the buffer, at shifted bounds. *)
Lemma slice_shift (pre s : list byte) (lo hi : Z) (x : list byte) :
  slice s lo hi = Ret x ->
  slice (pre ++ s) (len pre + lo) (len pre + hi) = Ret x.
Proof.
  intros H. apply slice_Ret in H. destruct H as (H0 & H1 & H2 & ->).
  pose proof (len_nonneg pre).
  rewrite slice_in_range by (rewrite ?len_app; lia).
  f_equal. replace (len pre + hi - (len pre + lo)) with (hi - lo) by lia.
  f_equal. unfold len.
  replace (Z.to_nat (Z.of_nat (List.length pre) + lo))
    with (List.length pre + Z.to_nat lo)%nat by lia.
  rewrite skipn_app.
  replace (List.length pre + Z.to_nat lo - List.length pre)%nat
    with (Z.to_nat lo) by lia.
  rewrite skipn_all2 by lia. reflexivity.
Qed.





Lemma GetByID_loop_not_found (h : list indexItem) (d : list byte) (id' : string) :
  GetByID_loop h d id' = Ret ([], false) <->
  (forall e, In e h -> id e <> id').
Proof.
  induction h as [|e0 h IH]; cbn [GetByID_loop].
  - split; [intros _ e [] | reflexivity].
  - destruct (String.eqb_spec (id e0) id') as [Heq|Hne].
    + split.
      * destruct (slice d (start e0) (end_ e0)); cbn [bind]; discriminate.
      * intros Hall. exfalso. apply (Hall e0); [now left | exact Heq].
    + rewrite IH. split.
      * intros Hall e [<-|Hin]; [exact Hne | now apply Hall].
      * intros Hall e Hin. apply Hall. now right.
Qed.

(** X9.  [GetByID] answers nil data with found = false exactly when no
    entry of the container has the id, in a new container for every id; it
    does so for every container, whatever its fields, and without a panic:
    the buffer is not touched. *)
Theorem GetByID_not_found_iff (b : Blob) (id' : string) :
  (GetByID b id' = Ret ([], false) <->
   (forall e, In e (header b) -> id e <> id')) /\
  GetByID New id' = Ret ([], false).
Proof.
  split; [apply GetByID_loop_not_found | reflexivity].
Qed.





(** ** [Write], chunk by chunk *)

(** X11.  Whatever the writer, [Write] hands it at most three chunks, in
    this order: the 4 bytes of the header length, the encoded header, the
    data buffer.  It stops at the first write that fails, so that nothing
    more reaches the writer, and returns the writer's error under the name
    of the phase: header length, header or data.  The errors of encoding
    the header never occur.  The container is returned as it was. *)
Theorem Write_stops_at_first_failure (W : Type) `{io.Writer W} (b : Blob) (w : W) :
  let '(w1, (_, e1)) := io.Write w (le_split 4 (uint32 (header_size (header b)))) in
  let '(w2, (_, e2)) := io.Write w1 (encode_header (header b)) in
  let '(w3, (_, e3)) := io.Write w2 (data b) in
  Write b w =
  match e1, e2, e3 with
  | Some e, _, _ =>
      (b, (w1, Some (errors_New ("writing blob header length: " ++ Error e))))
  | None, Some e, _ =>
      (b, (w2, Some (errors_New ("writing blob header: " ++ Error e))))
  | None, None, Some e =>
      (b, (w3, Some (errors_New ("writing blob data: " ++ Error e))))
  | None, None, None => (b, (w3, None))
  end.
Proof.
  unfold Write. rewrite Write_header_Buffer. unfold binary.Write.
  cbn [bytes.NewBuffer bytes.Len bytes.Bytes app]. rewrite len_encode_header.
  destruct (io.Write w (le_split 4 (uint32 (header_size (header b)))))
    as [w1 [n1 e1]].
  destruct (io.Write w1 (encode_header (header b))) as [w2 [n2 e2]].
  destruct (io.Write w2 (data b)) as [w3 [n3 e3]].
  destruct e1, e2, e3; reflexivity.
Qed.

(** What a writer that fails after some writes is left with. *)
Lemma Write_to_countdownWriter (b : Blob) (k : nat) (acc : list byte) :
  Write b {| accepts := k; accepted := acc |} =
  match k with
  | 0%nat =>
      (b, ({| accepts := 0; accepted := acc |},
           Some (errors_New
                   "writing blob header length: no space left on device")))
  | 1%nat =>
      (b, ({| accepts := 0;
              accepted := acc ++ le_split 4 (uint32 (header_size (header b))) |},
           Some (errors_New "writing blob header: no space left on device")))
  | 2%nat =>
      (b, ({| accepts := 0;
              accepted := (acc ++ le_split 4 (uint32 (header_size (header b))))
                          ++ encode_header (header b) |},
           Some (errors_New "writing blob data: no space left on device")))
  | S (S (S k')) =>
      (b, ({| accepts := k';
              accepted := ((acc ++ le_split 4 (uint32 (header_size (header b))))
                           ++ encode_header (header b)) ++ data b |}, None))
  end.
Proof.
  unfold Write. rewrite Write_header_Buffer. unfold binary.Write.
  cbn [bytes.NewBuffer bytes.Len bytes.Bytes app]. rewrite len_encode_header.
  destruct k as [|[|[|k]]]; reflexivity.
Qed.

(** X12.  In what [Write] emits, the data of an entry lies behind the
    header length and the header: with [headerLength] the value of the first
    4 bytes, the bytes from 4 + headerLength + start up to
    4 + headerLength + end are the data of the entry's item.  This is for
    containers that satisfy the index invariant and whose header is shorter
    than 2^32 bytes. *)
Theorem Write_places_data_after_header (items : list (string * list byte))
  (b : Blob) (i : nat) (e : indexItem) (p : string * list byte) :
  IndexInvariant items b ->
  header_size (header b) < 2 ^ 32 ->
  nth_error (header b) i = Some e ->
  nth_error items i = Some p ->
  exists out : list byte,
    Write b (bytes.NewBuffer []) = (b, (out, None)) /\
    slice out (4 + le_combine (firstn 4 out) + start e)
              (4 + le_combine (firstn 4 out) + end_ e) = Ret (snd p).
Proof.
  intros Hinv Hsize He Hp.
  pose proof (invariant_laid_out Hinv) as Hl.
  destruct Hinv as (_ & _ & _ & _ & _ & Hd).
  destruct (laid_out_lookup (header b) items [] i Hl eq_refl He Hp) as [_ Hs].
  cbn [app] in Hs. rewrite <- Hd in Hs.
  pose proof (header_size_nonneg (header b)) as Hnn.
  set (hl := le_split 4 (uint32 (header_size (header b)))).
  exists (hl ++ encode_header (header b) ++ data b).
  split; [apply Write_Buffer|].
  assert (Hfirst : firstn 4 (hl ++ encode_header (header b) ++ data b) = hl).
  { rewrite firstn_app. unfold hl. rewrite length_le_split. cbn [Nat.sub].
    rewrite firstn_O, app_nil_r. apply firstn_all2. rewrite length_le_split. lia. }
  assert (Hval : le_combine hl = header_size (header b)).
  { unfold hl. rewrite le_combine_split.
    change (2 ^ (Z.of_nat 4 * 8)) with (2 ^ 32). unfold uint32.
    rewrite Z.mod_mod, Z.mod_small by lia. reflexivity. }
  assert (Hpre : len (hl ++ encode_header (header b)) = 4 + header_size (header b))
    by (rewrite len_app, len_encode_header; unfold hl; now rewrite len_le_split).
  rewrite Hfirst, Hval, <- Hpre, app_assoc.
  now apply slice_shift.
Qed.

Lemma Write_places_data_after_header_witness :
  exists out : list byte,
    Write example_blob (bytes.NewBuffer []) = (example_blob, (out, None)) /\
    slice out (4 + le_combine (firstn 4 out) + 1)
              (4 + le_combine (firstn 4 out) + 3) = Ret (bytes_of [1; 2]).
Proof.
  apply (@Write_places_data_after_header example_items example_blob 1
           {| id := "a"; start := 1; end_ := 3 |} ("a"%string, bytes_of [1; 2])).
  - exact example_blob_invariant.
  - vm_compute. reflexivity.
  - reflexivity.
  - reflexivity.
Defined.

(** X13.  What [Write] emits for a container built by [Append] calls, with
    ids of at most 65535 bytes and a header shorter than 2^32 bytes, is read
    back by [Read] as the very same container: the same entries with the
    same ids and bounds in the same order, and the same buffer; the source
    is read to its end. *)
Theorem Read_after_Write_same_container (items : list (string * list byte))
  (b : Blob) (fuel : nat) :
  AppendAll New items = Ret b ->
  Forall (fun p => strlen (fst p) <= 65535) items ->
  header_size (header b) < 2 ^ 32 ->
  (1 + List.length items <= fuel)%nat ->
  exists out : list byte,
    Write b (bytes.NewBuffer []) = (b, (out, None)) /\
    Read fuel (bytes.NewBuffer out) = Ret ([], (Some b, None)).
Proof. apply Write_then_Read. Qed.

Lemma Read_after_Write_same_container_witness :
  exists out : list byte,
    Write access_blob (bytes.NewBuffer []) = (access_blob, (out, None)) /\
    Read 3 (bytes.NewBuffer out) = Ret ([], (Some access_blob, None)).
Proof.
  apply (@Read_after_Write_same_container access_items access_blob 3).
  - reflexivity.
  - repeat constructor; vm_compute; discriminate.
  - vm_compute. reflexivity.
  - cbn. lia.
Defined.

Lemma app_same_length (A : Type) (a a' c c' : list A) :
  List.length a = List.length a' -> a ++ c = a' ++ c' -> a = a' /\ c = c'.
Proof.
  revert a'. induction a as [|x a IH]; intros [|x' a'] Hl Heq;
    try discriminate; [now split|].
  injection Heq as <- Heq. injection Hl as Hl.
  destruct (IH a' Hl Heq) as [-> ->]. now split.
Qed.

(** One index over one buffer is the layout of one sequence of items. *)
Lemma laid_out_unique (h : list indexItem) :
  forall (items1 items2 : list (string * list byte)) (from : Z),
    laid_out from h items1 ->
    laid_out from h items2 ->
    concat (map snd items1) = concat (map snd items2) ->
    items1 = items2.
Proof.
  induction h as [|e h IH]; intros [|[id1 d1] items1] [|[id2 d2] items2] from H1 H2 Hc;
    cbn [laid_out] in H1, H2; try contradiction; [reflexivity|].
  cbn [fst snd] in *.
  destruct H1 as (Hid1 & Hs1 & He1 & H1). destruct H2 as (Hid2 & Hs2 & He2 & H2).
  cbn [map concat snd] in Hc.
  apply app_same_length in Hc; [|unfold len in *; lia].
  destruct Hc as [-> Hc]. f_equal; [congruence|].
  apply (IH items1 items2 (end_ e)); assumption.
Qed.

(** X14.  The archive tells the appended items: two sequences of [Append]
    calls, with ids of at most 65535 bytes and headers shorter than 2^32
    bytes, for which [Write] emits the same bytes are the same sequence of
    (id, data) pairs. *)
Theorem Write_determines_items (items1 items2 : list (string * list byte))
  (b1 b2 : Blob) :
  AppendAll New items1 = Ret b1 ->
  AppendAll New items2 = Ret b2 ->
  Forall (fun p => strlen (fst p) <= 65535) items1 ->
  Forall (fun p => strlen (fst p) <= 65535) items2 ->
  header_size (header b1) < 2 ^ 32 ->
  header_size (header b2) < 2 ^ 32 ->
  fst (snd (Write b1 (bytes.NewBuffer []))) =
  fst (snd (Write b2 (bytes.NewBuffer []))) ->
  items1 = items2.
Proof.
  intros HA1 HA2 Hid1 Hid2 Hs1 Hs2 Hout.
  set (fuel := (1 + List.length items1 + List.length items2)%nat).
  destruct (@Write_then_Read items1 b1 fuel HA1 Hid1 Hs1 ltac:(unfold fuel; lia))
    as (out1 & HW1 & HR1).
  destruct (@Write_then_Read items2 b2 fuel HA2 Hid2 Hs2 ltac:(unfold fuel; lia))
    as (out2 & HW2 & HR2).
  rewrite HW1, HW2 in Hout. cbn [fst snd] in Hout. subst out2.
  rewrite HR1 in HR2. injection HR2 as Hb. subst b2.
  pose proof (AppendAll_invariant _ HA1) as Hinv1.
  pose proof (AppendAll_invariant _ HA2) as Hinv2.
  pose proof (invariant_laid_out Hinv1) as Hl1.
  pose proof (invariant_laid_out Hinv2) as Hl2.
  destruct Hinv1 as (_ & _ & _ & _ & _ & Hd1).
  destruct Hinv2 as (_ & _ & _ & _ & _ & Hd2).
  apply (@laid_out_unique (header b1) items1 items2 0 Hl1 Hl2). congruence.
Qed.

Lemma Write_determines_items_witness : access_items = access_items.
Proof.
  apply (@Write_determines_items access_items access_items access_blob access_blob).
  - reflexivity.
  - reflexivity.
  - repeat constructor; vm_compute; discriminate.
  - repeat constructor; vm_compute; discriminate.
  - vm_compute. reflexivity.
  - vm_compute. reflexivity.
  - reflexivity.
Defined.

(** The bytes [Write] emits for a container built by [Append] calls,
    followed by other bytes, are read back as the container, the other
    bytes left unread. *)
Lemma Write_then_Read_rest (items : list (string * list byte)) (b : Blob)
  (fuel : nat) (w rest : list byte) :
  AppendAll New items = Ret b ->
  Forall (fun p => strlen (fst p) <= 65535) items ->
  header_size (header b) < 2 ^ 32 ->
  (1 + List.length items <= fuel)%nat ->
  exists out : list byte,
    Write b (bytes.NewBuffer w) = (b, (w ++ out, None)) /\
    Read fuel (bytes.NewBuffer (out ++ rest)) = Ret (rest, (Some b, None)).
Proof.
  intros HA Hids Hsize Hfuel.
  apply AppendAll_decode in HA. cbn [New header data app] in HA.
  destruct HA as (Hh & Hd & Hmax).
  specialize (Hmax ltac:(vm_compute; discriminate)).
  change (uint64 (len (@nil byte))) with 0 in Hh.
  set (ens := map item_entry items) in *.
  assert (Hok : Forall entry_ok ens)
    by (apply items_entry_ok; [assumption | now rewrite <- Hd]).
  assert (Henc : encode_header (header b) = flat_map entry_bytes ens)
    by (rewrite Hh; now apply encode_decode_entries).
  assert (Hlen : header_size (header b) = len (flat_map entry_bytes ens))
    by (now rewrite <- len_encode_header, Henc).
  pose proof (len_nonneg (data b)).
  rewrite Write_Buffer. cbn [bytes.NewBuffer]. eexists. split; [reflexivity|].
  rewrite Henc, Hlen.
  unfold uint32. rewrite Z.mod_small
    by (pose proof (len_nonneg (flat_map entry_bytes ens)); lia).
  rewrite <- !app_assoc.
  assert (Htotal : declared_total ens = len (data b))
    by (unfold ens; now rewrite declared_total_items, <- Hd).
  rewrite Read_archive_rest.
  - rewrite <- Hh. destruct b. reflexivity.
  - lia.
  - unfold ens. rewrite length_map. lia.
  - assumption.
  - lia.
  - now rewrite Htotal.
  - rewrite Htotal. unfold MaxInt in Hmax. lia.
Qed.

(** X15.  Containers written one after the other into one [bytes.Buffer]
    are read back one after the other: the first [Read] returns the first
    container and leaves the bytes of the second, the second [Read] returns
    the second and drains the buffer.  (Both built by [Append] calls, with
    ids of at most 65535 bytes and headers shorter than 2^32 bytes.) *)
Theorem Read_archives_in_sequence (items1 items2 : list (string * list byte))
  (b1 b2 : Blob) (fuel : nat) :
  AppendAll New items1 = Ret b1 ->
  AppendAll New items2 = Ret b2 ->
  Forall (fun p => strlen (fst p) <= 65535) items1 ->
  Forall (fun p => strlen (fst p) <= 65535) items2 ->
  header_size (header b1) < 2 ^ 32 ->
  header_size (header b2) < 2 ^ 32 ->
  (1 + List.length items1 <= fuel)%nat ->
  (1 + List.length items2 <= fuel)%nat ->
  exists (w1 w2 r1 : bytes.Buffer),
    Write b1 (bytes.NewBuffer []) = (b1, (w1, None)) /\
    Write b2 w1 = (b2, (w2, None)) /\
    Read fuel w2 = Ret (r1, (Some b1, None)) /\
    Read fuel r1 = Ret ([], (Some b2, None)).
Proof.
  intros HA1 HA2 Hid1 Hid2 Hs1 Hs2 Hf1 Hf2.
  destruct (@Write_then_Read_rest items2 b2 fuel
              (le_split 4 (uint32 (header_size (header b1))) ++
               encode_header (header b1) ++ data b1) [] HA2 Hid2 Hs2 Hf2)
    as (out2 & HW2 & HR2).
  destruct (@Write_then_Read_rest items1 b1 fuel [] out2 HA1 Hid1 Hs1 Hf1)
    as (out1 & HW1 & HR1).
  assert (Hout1 : out1 = le_split 4 (uint32 (header_size (header b1))) ++
                         encode_header (header b1) ++ data b1).
  { rewrite Write_Buffer in HW1. cbn [bytes.NewBuffer app] in HW1. congruence. }
  exists out1, (out1 ++ out2), out2. repeat split.
  - exact HW1.
  - rewrite Hout1. exact HW2.
  - exact HR1.
  - rewrite app_nil_r in HR2. exact HR2.
Qed.

Lemma Read_archives_in_sequence_witness :
  exists (w1 w2 r1 : bytes.Buffer),
    Write access_blob (bytes.NewBuffer []) = (access_blob, (w1, None)) /\
    Write example_blob w1 = (example_blob, (w2, None)) /\
    Read 4 w2 = Ret (r1, (Some access_blob, None)) /\
    Read 4 r1 = Ret ([], (Some example_blob, None)).
Proof.
  apply (@Read_archives_in_sequence access_items example_items
           access_blob example_blob 4).
  - reflexivity.
  - reflexivity.
  - repeat constructor; vm_compute; discriminate.
  - repeat constructor; vm_compute; discriminate.
  - vm_compute. reflexivity.
  - vm_compute. reflexivity.
  - cbn. lia.
  - cbn. lia.
Defined.
